(** * Evol: populations of individuals, survival, breeding and contests

    A shallow embedding of [evol/population.py]: the classes [Population]
    and [ContestPopulation].

    Python objects are mutable and shared by reference, so the embedding
    keeps an explicit object store of [Individual]s.  A population holds
    a list of references into that store; two positions of the list may
    hold the same reference (the same object twice), and an update of an
    individual is seen through every reference to it.

    Random draws are inputs: every operation that calls the [random]
    module takes the raw values the generator will hand out. *)

From Stdlib Require Import ZArith QArith Qround Lia Permutation Sorted.
From stdpp Require Import base list numbers.

Close Scope Q_scope.
Open Scope Z_scope.

(** ** Exceptions and results *)

(** The exceptions the module raises itself or receives from the Python
    runtime.  [DanglingRef] is a read or write through a reference that
    is not in the store; Python cannot produce one, and no well-formed
    state raises it. *)
Inductive exn : Set :=
  | ValueError
  | RuntimeError
  | TypeError
  | IndexError
  | DanglingRef.

Inductive result (A : Type) : Type :=
  | Ok (a : A)
  | Err (e : exn).
Arguments Ok {A} a.
Arguments Err {A} e.

Definition is_Ok {A} (r : result A) : Prop :=
  match r with Ok _ => True | Err _ => False end.

Definition is_Err {A} (r : result A) : Prop :=
  match r with Ok _ => False | Err _ => True end.

(** ** Python helpers *)

(** [round(x)] on a number: to the nearest integer, halves to the even
    neighbour.  Floats are idealised as rationals. *)
Definition py_round (q : Q) : Z :=
  let f := Qfloor q in
  match Qcompare (Qminus q (inject_Z f)) (1 # 2) with
  | Lt => f
  | Gt => f + 1
  | Eq => if Z.even f then f else f + 1
  end.

(** [l[:k]]: the first [k] elements, or all but the last [-k] when [k] is
    negative. *)
Definition py_slice_to {A} (l : list A) (k : Z) : list A :=
  if 0 <=? k then take (Z.to_nat k) l
  else take (Z.to_nat (Z.of_nat (length l) + k)) l.

(** What a caller may pass for an optional size: [None], an integer or
    a boolean (in Python a boolean is an integer, [True] being 1). *)
Inductive pyarg : Set :=
  | PyNone
  | PyInt (z : Z)
  | PyBool (b : bool).

(** The truth value of an argument, as [if] tests it. *)
Definition truthy (v : pyarg) : bool :=
  match v with
  | PyNone => false
  | PyInt z => negb (z =? 0)
  | PyBool b => b
  end.

(** The integer an argument counts as. *)
Definition int_of (v : pyarg) : Z :=
  match v with
  | PyNone => 0
  | PyInt z => z
  | PyBool b => if b then 1 else 0
  end.

(** [random.randint(lo, hi)]: a value of [lo..hi] chosen by the raw draw
    [raw]; an empty range is a [ValueError]. *)
Definition randint (lo hi : Z) (raw : nat) : result Z :=
  if hi <? lo then Err ValueError
  else Ok (lo + Z.of_nat raw `mod` (hi - lo + 1)).

(** [random.choices(population, k=k, weights=weights)]: [k] draws with
    replacement.  Draw [j] lands on the position chosen by [rnd j]; the
    embedding keeps the number of draws and where they come from, not
    their distribution.  An empty population cannot be sampled, and the
    weights must have a positive total. *)
Definition choices {A} (rnd : nat → nat) (population : list A) (k : Z)
    (weights : list Z) : result (list A) :=
  match population with
  | [] => Err IndexError
  | d :: _ =>
      if foldr Z.add 0 weights <=? 0 then Err ValueError
      else Ok (map (λ j, nth (rnd j mod length population)%nat population d)
                   (seq 0 (Z.to_nat k)))
  end.

(** [sorted(l, key=..., reverse=reverse)] on elements paired with their
    keys.  Python's sort is stable in both directions: an element goes
    in front of the first one that must not precede it. *)
Definition key_le (reverse : bool) (x y : Z) : bool :=
  if reverse then y <=? x else x <=? y.

Fixpoint insert_by_key {A} (reverse : bool) (x : Z * A) (l : list (Z * A))
    : list (Z * A) :=
  match l with
  | [] => [x]
  | y :: l' =>
      if key_le reverse x.1 y.1 then x :: y :: l'
      else y :: insert_by_key reverse x l'
  end.

Definition sorted {A} (reverse : bool) (l : list (Z * A)) : list (Z * A) :=
  foldr (insert_by_key reverse) [] l.

(** The first [count] elements of [islice(cycle(xs), pos, None)]: the
    endless repetition of [xs], read from position [pos] on.  Cycling an
    empty list yields nothing. *)
Fixpoint islice_cycle {A} (xs : list A) (pos count : nat) : list A :=
  match count with
  | O => []
  | S count' =>
      match xs !! (pos mod length xs)%nat with
      | Some x => x :: islice_cycle xs (S pos) count'
      | None => []
      end
  end.

(** [zip] over the unpacked list [ls]: the tuples of elements at the
    same position, up to the end of the shortest list; no tuples from no
    lists. *)
Fixpoint zip_star {A} (ls : list (list A)) : list (list A) :=
  match ls with
  | [] => []
  | [l] => map (λ x, [x]) l
  | l :: ls' => zip_with cons l (zip_star ls')
  end.

(** [min(l, key=...)] and [max(l, key=...)] on elements paired with
    their keys: one scan that keeps the first element with the least
    key, or with the greatest if [reverse]; of no elements there is no
    least and no greatest. *)
Definition key_lt (reverse : bool) (x y : Z) : bool :=
  if reverse then y <? x else x <? y.

Fixpoint py_first_best {A} (reverse : bool) (best : Z * A) (l : list (Z * A))
    : Z * A :=
  match l with
  | [] => best
  | x :: l' =>
      py_first_best reverse (if key_lt reverse x.1 best.1 then x else best) l'
  end.

Definition py_min {A} (l : list (Z * A)) : result (Z * A) :=
  match l with
  | [] => Err ValueError
  | x :: l' => Ok (py_first_best false x l')
  end.

Definition py_max {A} (l : list (Z * A)) : result (Z * A) :=
  match l with
  | [] => Err ValueError
  | x :: l' => Ok (py_first_best true x l')
  end.

(** ** Populations *)

(** A reference to an individual in the object store. *)
Abbreviation addr := nat (only parsing).

(** The attributes of a population; [E] is the type of its objective. *)
Record Population (E : Type) : Type := mkPopulation {
  eval_function : E;
  generation : Z;
  individuals : list addr;
  intended_size : Z;
  maximize : bool
}.
Arguments mkPopulation {E}.
Arguments eval_function {E}.
Arguments generation {E}.
Arguments individuals {E}.
Arguments intended_size {E}.
Arguments maximize {E}.

Definition set_individuals {E} (l : list addr) (self : Population E)
    : Population E :=
  mkPopulation (eval_function self) (generation self) l
               (intended_size self) (maximize self).

Definition set_intended_size {E} (n : Z) (self : Population E)
    : Population E :=
  mkPopulation (eval_function self) (generation self) (individuals self)
               n (maximize self).

(** What the pairs of a competitor and its score add up to for the
    individual [a]. *)
Definition credited (a : addr) (pairs : list (addr * Z)) : Z :=
  foldr (λ p acc, (if decide (p.1 = a) then p.2 else 0) + acc) 0 pairs.

(** A fitness with [z] added; no fitness stays no fitness. *)
Definition add_credit (z : Z) (f : option Z) : option Z :=
  match f with Some x => Some (x + z) | None => None end.

(** The number of matches in which [a] is the first competitor, and the
    number of matches in which it takes part at all. *)
Definition anchored (a : addr) (matches : list (list addr)) : nat :=
  length (filter (λ m, head m = Some a) matches).

Definition participations (a : addr) (matches : list (list addr)) : nat :=
  length (filter (λ m, a ∈ m) matches).

(** ** The object store *)

(** Modelled from the spec: the class [Individual] of the package is not
    in this module.  An individual holds one chromosome and a nullable
    fitness, [None] standing for not yet evaluated or invalidated. *)
Record Individual (C : Type) : Type := mkIndividual {
  chromosome : C;
  fitness : option Z
}.
Arguments mkIndividual {C}.
Arguments chromosome {C}.
Arguments fitness {C}.

Abbreviation Store C := (list (Individual C)).

(** Computations that read and write the store and may raise. *)
Definition M (C A : Type) : Type := Store C → result (A * Store C).

#[export] Instance M_ret {C} : MRet (M C) := λ A x st, Ok (x, st).

#[export] Instance M_bind {C} : MBind (M C) := λ A B f m st,
  match m st with
  | Ok (x, st') => f x st'
  | Err e => Err e
  end.

Section Evol.

Context {C : Type}.

Definition with_fitness (f : option Z) (ind : Individual C) : Individual C :=
  {| chromosome := chromosome ind; fitness := f |}.

Definition raise {A} (e : exn) : M C A := λ _, Err e.

Definition lift {A} (r : result A) : M C A := λ st,
  match r with Ok x => Ok (x, st) | Err e => Err e end.

Definition load (a : addr) : M C (Individual C) := λ st,
  match st !! a with
  | Some ind => Ok (ind, st)
  | None => Err DanglingRef
  end.

(** [individual.fitness = f] *)
Definition set_fitness (a : addr) (f : option Z) : M C unit := λ st,
  match st !! a with
  | Some ind => Ok (tt, <[a := with_fitness f ind]> st)
  | None => Err DanglingRef
  end.

Definition alloc (ind : Individual C) : M C addr := λ st,
  Ok (length st, st ++ [ind]).

(** [for x in l: body(x)] *)
Fixpoint for_each {A} (body : A → M C unit) (l : list A) : M C unit :=
  match l with
  | [] => mret tt
  | x :: l' => body x ;; for_each body l'
  end.

(** [[f(x) for x in l]] *)
Fixpoint collect {A B} (f : A → M C B) (l : list A) : M C (list B) :=
  match l with
  | [] => mret []
  | x :: l' => y ← f x; ys ← collect f l'; mret (y :: ys)
  end.

(** Modelled from the spec: [Individual(chromosome=c)], the constructor
    of the class that is not in this module, makes an individual without
    a fitness. *)
Definition Individual_init (c : C) : M C addr :=
  alloc {| chromosome := c; fitness := None |}.

(** Modelled from the spec: [Individual.evaluate(eval_function, lazy)],
    a method of the class that is not in this module, scores the
    chromosome and stores the score, unless [lazy] is set and a fitness
    is already there. *)
Definition Individual_evaluate (eval_function : C → Z) (lazy : bool)
    (a : addr) : M C unit :=
  ind ← load a;
  if lazy && bool_decide (is_Some (fitness ind)) then mret tt
  else set_fitness a (Some (eval_function (chromosome ind))).

(** ** Population: the methods *)

(** [Population.__init__] *)
Definition Population_init {E} (chromosomes : list C) (eval_function : E)
    (maximize : bool) : M C (Population E) :=
  inds ← collect Individual_init chromosomes;
  mret (mkPopulation eval_function 0 inds
                     (Z.of_nat (length chromosomes)) maximize).

(** [Population.evaluate] *)
Definition Population_evaluate (lazy : bool) (self : Population (C → Z))
    : M C unit :=
  for_each (Individual_evaluate (eval_function self) lazy) (individuals self).

(** [Population.map]; [func] may change the store and returns a
    reference. *)
Definition Population_map {E} (func : addr → M C addr) (self : Population E)
    : M C (Population E) :=
  inds ← collect func (individuals self);
  mret (set_individuals inds self).

(** [Population.filter] *)
Definition Population_filter {E} (func : addr → M C bool) (self : Population E)
    : M C (Population E) :=
  flags ← collect func (individuals self);
  mret (set_individuals
          (map fst (filter (λ p, p.2 = true) (zip (individuals self) flags)))
          self).

(** The size [survive] aims at (the first statements of the method):
    [n], the rounded share [fraction] of the current size, or the smaller
    of both; asking for neither is an error.  The share is computed on
    rationals, exactly: where the code multiplies and rounds floats its
    size can differ by one next to a half, and a fraction that is not a
    finite number, which the code cannot round, is not a value here. *)
Definition resulting_size (fraction : option Q) (n : option Z) (len : nat)
    : result Z :=
  match fraction, n with
  | None, None => Err ValueError
  | None, Some n => Ok n
  | Some f, None => Ok (py_round (Qmult f (inject_Z (Z.of_nat len))))
  | Some f, Some n =>
      Ok (Z.min (py_round (Qmult f (inject_Z (Z.of_nat len)))) n)
  end.

(** The fitness of an individual where a number is needed: as a sort key
    or as a weight.  A missing fitness does not compare and does not add. *)
Definition fitness_key (a : addr) : M C Z :=
  ind ← load a;
  match fitness ind with
  | Some f => mret f
  | None => raise TypeError
  end.

Definition keyed (l : list addr) : M C (list (Z * addr)) :=
  collect (λ a, f ← fitness_key a; mret (f, a)) l.

(** [Population.survive].  The method calls [self.evaluate], which a
    subclass overrides: [evaluate] is the method of the receiver's
    class.  [rnd] feeds [choices]. *)
Definition Population_survive {E} (evaluate : bool → Population E → M C unit)
    (rnd : nat → nat) (fraction : option Q) (n : option Z) (luck : bool)
    (self : Population E) : M C (Population E) :=
  size ← lift (resulting_size fraction n (length (individuals self)));
  evaluate true self;;
  if size =? 0 then raise RuntimeError
  else if size >? Z.of_nat (length (individuals self)) then raise ValueError
  else if luck then
    weights ← collect fitness_key (individuals self);
    inds ← lift (choices rnd (individuals self) size weights);
    mret (set_individuals inds self)
  else
    sorted_individuals ← keyed (individuals self);
    mret (set_individuals
            (py_slice_to (map snd (sorted (maximize self) sorted_individuals))
                         size)
            self).

(** What [parent_picker] returns: one individual, or a sequence of them
    (an object with [__len__]). *)
Inductive picked : Set :=
  | One (a : addr)
  | Many (l : list addr).

Definition parents_of (p : picked) : list addr :=
  match p with One a => [a] | Many l => l end.

(** The loop of [Population.breed], one iteration per element of
    [iters].  [parent_picker] and [combiner] get the number of the
    iteration, which stands for whatever randomness they use; the picker
    reads the individuals it is given in the store.  Besides the
    population the loop returns the arguments [parent_picker] was called
    with, in order. *)
Fixpoint breed_loop {E} (parent_picker : nat → Store C → list addr → picked)
    (combiner : nat → list C → C) (size_before_breed : nat)
    (iters : list nat) (self : Population E)
    : M C (Population E * list (list addr)) :=
  match iters with
  | [] => mret (self, [])
  | i :: iters' =>
      let snapshot := take size_before_breed (individuals self) in
      parents ← (λ st, Ok (parents_of (parent_picker i st snapshot), st));
      chromosomes ← collect (λ a, ind ← load a; mret (chromosome ind)) parents;
      child ← Individual_init (combiner i chromosomes);
      r ← breed_loop parent_picker combiner size_before_breed iters'
            (set_individuals (individuals self ++ [child]) self);
      mret (r.1, snapshot :: r.2)
  end.

(** [Population.breed].  [population_size] replaces [intended_size] only
    when it is truthy.  The keyword arguments, which [select_arguments]
    hands to the picker and to the combiner as far as they name them,
    are part of the two functions here. *)
Definition Population_breed {E}
    (parent_picker : nat → Store C → list addr → picked)
    (combiner : nat → list C → C) (population_size : pyarg)
    (self : Population E) : M C (Population E * list (list addr)) :=
  let self :=
    if truthy population_size
    then set_intended_size (int_of population_size) self
    else self in
  let size_before_breed := length (individuals self) in
  breed_loop parent_picker combiner size_before_breed
    (seq 0 (Z.to_nat (intended_size self - Z.of_nat size_before_breed)))
    self.

(** [deepcopy] of the individuals of a population: every object is
    copied once, and [memo] maps the objects already copied to their
    copies, so that sharing is kept. *)
Fixpoint deepcopy_refs (memo : list (addr * addr)) (l : list addr)
    : M C (list addr) :=
  match l with
  | [] => mret []
  | a :: l' =>
      match list_find (λ p, p.1 = a) memo with
      | Some (_, (_, b)) => bs ← deepcopy_refs memo l'; mret (b :: bs)
      | None =>
          ind ← load a;
          b ← alloc ind;
          bs ← deepcopy_refs ((a, b) :: memo) l';
          mret (b :: bs)
      end
  end.

Definition deepcopy {E} (self : Population E) : M C (Population E) :=
  inds ← deepcopy_refs [] (individuals self);
  mret (set_individuals inds self).

(** A step of an evolution: [step.apply(population)] works in place on
    the population it is given.  The result here is that population as
    the step leaves it; what [apply] itself returns is not used. *)
Definition Step (E : Type) : Type := Population E → M C (Population E).

Fixpoint apply_steps {E} (evolution : list (Step E)) (result : Population E)
    : M C (Population E) :=
  match evolution with
  | [] => mret result
  | step :: evolution' => result' ← step result; apply_steps evolution' result'
  end.

Fixpoint evolve_batches {E} (n : nat) (evolution : list (Step E))
    (result : Population E) : M C (Population E) :=
  match n with
  | O => mret result
  | S n' =>
      result' ← apply_steps evolution result;
      evolve_batches n' evolution result'
  end.

(** [Population.evolve] *)
Definition Population_evolve {E} (evolution : list (Step E)) (n : Z)
    (self : Population E) : M C (Population E) :=
  result ← deepcopy self;
  evolve_batches (Z.to_nat n) evolution result.

(** ** ContestPopulation *)

(** The objective of a contest gets the competitors of a match and
    returns their scores, position by position. *)
Definition Contest : Type := list (Individual C) → list Z.

Record ContestPopulation : Type := mkContestPopulation {
  base : Population Contest;
  matches_per_round : Z;
  individuals_per_match : Z
}.

Definition set_base (b : Population Contest) (self : ContestPopulation)
    : ContestPopulation :=
  mkContestPopulation b (matches_per_round self) (individuals_per_match self).

(** The offsets of the rotations of one round: [0] and
    [individuals_per_match - 1] draws of [randint(0, len - 1)]. *)
Definition draw_offsets (rnd : nat → nat) (self : ContestPopulation)
    : M C (list Z) :=
  drawn ← collect
    (λ j, lift (randint 0 (Z.of_nat (length (individuals (base self))) - 1)
                        (rnd j)))
    (seq 0 (Z.to_nat (individuals_per_match self - 1)));
  mret (0 :: drawn).

(** The matches of a round: the rotations, zipped, for as many positions
    as there are individuals. *)
Definition contest_matches (l : list addr) (offsets : list Z)
    : list (list addr) :=
  let generators :=
    map (λ offset, islice_cycle l (Z.to_nat offset) (length l)) offsets in
  take (length l) (zip_star generators).

(** [competitor.fitness += score] *)
Definition add_fitness (a : addr) (score : Z) : M C unit :=
  ind ← load a;
  match fitness ind with
  | Some f => set_fitness a (Some (f + score))
  | None => raise TypeError
  end.

Definition play_match (eval : Contest) (competitors : list addr) : M C unit :=
  inds ← collect load competitors;
  for_each (λ p, add_fitness p.1 p.2) (zip competitors (eval inds)).

Definition play_round (rnd : nat → nat) (self : ContestPopulation) : M C unit :=
  offsets ← draw_offsets rnd self;
  for_each (play_match (eval_function (base self)))
           (contest_matches (individuals (base self)) offsets).

(** [all(individual.fitness is not None for individual in self)] *)
Definition all_evaluated (self : ContestPopulation) : M C bool :=
  inds ← collect load (individuals (base self));
  mret (forallb (λ ind, bool_decide (is_Some (fitness ind))) inds).

(** [lazy and test], where [test] is run only when [lazy] is set. *)
Definition lazy_and (lazy : bool) (test : M C bool) : M C bool :=
  if lazy then test else mret false.

(** [ContestPopulation.evaluate]; [rnd r j] is the raw value behind draw
    [j] of round [r]. *)
Definition ContestPopulation_evaluate (rnd : nat → nat → nat) (lazy : bool)
    (self : ContestPopulation) : M C unit :=
  evaluated ← lazy_and lazy (all_evaluated self);
  if evaluated : bool then mret tt
  else
    for_each (λ a, set_fitness a (Some 0)) (individuals (base self));;
    for_each (λ r, play_round (rnd r) self)
             (seq 0 (Z.to_nat (matches_per_round self))).

(** [ContestPopulation.reset_fitness] *)
Definition reset_fitness (self : ContestPopulation) : M C unit :=
  for_each (λ a, set_fitness a None) (individuals (base self)).

(** [ContestPopulation.map] *)
Definition ContestPopulation_map (func : addr → M C addr)
    (self : ContestPopulation) : M C ContestPopulation :=
  b ← Population_map func (base self);
  reset_fitness (set_base b self);;
  mret (set_base b self).

(** [ContestPopulation.filter] *)
Definition ContestPopulation_filter (func : addr → M C bool)
    (self : ContestPopulation) : M C ContestPopulation :=
  b ← Population_filter func (base self);
  reset_fitness (set_base b self);;
  mret (set_base b self).

(** [ContestPopulation.survive]: the inherited method, which evaluates
    with the contest, then the reset. *)
Definition ContestPopulation_survive (rnd_eval : nat → nat → nat)
    (rnd : nat → nat) (fraction : option Q) (n : option Z) (luck : bool)
    (self : ContestPopulation) : M C ContestPopulation :=
  b ← Population_survive
        (λ lazy p, ContestPopulation_evaluate rnd_eval lazy (set_base p self))
        rnd fraction n luck (base self);
  reset_fitness (set_base b self);;
  mret (set_base b self).

(** ** Reading a state *)

Definition live (st : Store C) (a : addr) : Prop := (a < length st)%nat.

(** The fitness of the object behind a reference. *)
Definition fitness_at (st : Store C) (a : addr) : option Z :=
  match st !! a with Some ind => fitness ind | None => None end.

Definition chromosome_at (st : Store C) (a : addr) : option C :=
  match st !! a with Some ind => Some (chromosome ind) | None => None end.

(** Every individual of [l] has a fitness. *)
Definition evaluated (st : Store C) (l : list addr) : Prop :=
  Forall (λ a, is_Some (fitness_at st a)) l.

(** The object behind [a] is there and has no fitness. *)
Definition unevaluated (st : Store C) (a : addr) : Prop :=
  ∃ ind, st !! a = Some ind ∧ fitness ind = None.

(** From [st] to [st'] no object appeared or went away, and no fitness
    was taken away. *)
Definition keeps_fitness (st st' : Store C) : Prop :=
  length st' = length st ∧
  ∀ b, is_Some (fitness_at st b) → is_Some (fitness_at st' b).

(** [a] may stand in front of [b] when the individuals are sorted by
    fitness, downwards if [reverse]. *)
Definition ranked_before (st : Store C) (reverse : bool) (a b : addr) : Prop :=
  ∃ fa fb, fitness_at st a = Some fa ∧ fitness_at st b = Some fb ∧
           key_le reverse fa fb = true.

(** A parent picker that picks existing individuals: whenever the
    individuals it is given are in the store, so are its parents. *)
Definition picks_live (parent_picker : nat → Store C → list addr → picked)
    : Prop :=
  ∀ i st snapshot,
    Forall (live st) snapshot →
    Forall (live st) (parents_of (parent_picker i st snapshot)).

(** The child of iteration [i] of a breeding, made in the store [st] from
    the individuals [snapshot]: its chromosome is what [combiner] makes
    of the chromosomes of the picked parents, and it has no fitness. *)
Definition bred_from (parent_picker : nat → Store C → list addr → picked)
    (combiner : nat → list C → C) (snapshot : list addr) (i : nat)
    (st : Store C) (child : Individual C) : Prop :=
  ∃ chromosomes,
    Forall2 (λ a c, chromosome_at st a = Some c)
            (parents_of (parent_picker i st snapshot)) chromosomes ∧
    child = {| chromosome := combiner i chromosomes; fitness := None |}.

(** Every object of [st] is in [st'], as it was. *)
Definition unchanged_in (st st' : Store C) : Prop :=
  ∀ a ind, st !! a = Some ind → st' !! a = Some ind.

(** [b] is a copy in [st'] of the object [a] of [st]: an object that was
    not in [st], with the contents of [a]. *)
Definition copy_of (st st' : Store C) (a b : addr) : Prop :=
  (length st ≤ b)%nat ∧
  ∃ ind, st !! a = Some ind ∧ st' !! b = Some ind.

(** A step that works on the population it is given: of the objects
    that exist when it starts it changes only individuals of that
    population, and the individuals it leaves in the population are
    individuals that were in it or objects it made. *)
Definition local_step {E} (step : Step E) : Prop :=
  ∀ p st p' st', step p st = Ok (p', st') →
    (∀ a ind, a ∉ individuals p → st !! a = Some ind → st' !! a = Some ind) ∧
    (∀ a, a ∈ individuals p' → a ∈ individuals p ∨ (length st ≤ a)%nat).

(** [Population.min_individual] and [Population.max_individual]:
    a lazy evaluation by the method of the receiver's class, then the
    first individual of least, or greatest, fitness. *)
Definition Population_min_individual {E}
    (evaluate : bool → Population E → M C unit) (self : Population E)
    : M C addr :=
  evaluate true self;;
  kl ← keyed (individuals self);
  best ← lift (py_min kl);
  mret best.2.

Definition Population_max_individual {E}
    (evaluate : bool → Population E → M C unit) (self : Population E)
    : M C addr :=
  evaluate true self;;
  kl ← keyed (individuals self);
  best ← lift (py_max kl);
  mret best.2.

(** [Population.generate]: [size] calls of [init_func], call [i] giving
    [init_func i], and the constructor with its default [maximize]. *)
Definition Population_generate {E} (init_func : nat → C) (eval_func : E)
    (size : Z) : M C (Population E) :=
  Population_init (map init_func (seq 0 (Z.to_nat size))) eval_func true.

(** Modelled from the spec: [Individual.mutate(func)], a method of the
    class that is not in this module, replaces the chromosome by what
    [func] makes of it; the fitness is left to the caller. *)
Definition Individual_mutate (func : C → C) (a : addr) : M C unit := λ st,
  match st !! a with
  | Some ind =>
      Ok (tt, <[a := {| chromosome := func (chromosome ind);
                        fitness := fitness ind |}]> st)
  | None => Err DanglingRef
  end.

(** [Population.mutate], over the method [Individual.mutate] of the
    class that is not in this module, here [mutate_one]. *)
Definition Population_mutate {E}
    (mutate_one : (C → C) → addr → M C unit) (func : C → C)
    (self : Population E) : M C unit :=
  for_each (mutate_one func) (individuals self).

(** What the loop of [Population.mutate] needs of [Individual.mutate]:
    it works on the one individual, whose chromosome it replaces by
    what [func] makes of it; what it does to the fitness is left open. *)
Definition mutates_chromosome
    (mutate_one : (C → C) → addr → M C unit) : Prop :=
  ∀ func a st,
    match mutate_one func a st with
    | Ok (_, st') =>
        ∃ ind ind', st !! a = Some ind ∧
                    chromosome ind' = func (chromosome ind) ∧
                    st' = <[a := ind']> st
    | Err _ => st !! a = None
    end.

(** Of the objects of [st], only individuals of [l] may differ in
    [st'], and none by its chromosome. *)
Definition outside_unchanged (l : list addr) (st st' : Store C) : Prop :=
  (∀ a, chromosome_at st' a = chromosome_at st a) ∧
  (∀ a, a ∉ l → st' !! a = st !! a).

(** The fitness an evaluation leaves an individual with: the one it
    had, if the evaluation is lazy and it had one, and the score of its
    chromosome otherwise. *)
Definition fitness_after_evaluate (ev : C → Z) (lazy : bool) (st : Store C)
    (a : addr) : option Z :=
  match st !! a with
  | Some ind =>
      if lazy && bool_decide (is_Some (fitness ind)) then fitness ind
      else Some (ev (chromosome ind))
  | None => None
  end.

End Evol.

Arguments Contest C : clear implicits.
Arguments ContestPopulation C : clear implicits.

(** ** Examples *)

(** [Population(chromosomes=[1,2,3,4], eval_function=lambda c: c,
    maximize=True)], built in an empty store. *)
Definition store1234 : Store Z :=
  [mkIndividual 1 None; mkIndividual 2 None;
   mkIndividual 3 None; mkIndividual 4 None].

Definition pop1234 : Population (Z → Z) :=
  mkPopulation (λ c, c) 0 [0; 1; 2; 3]%nat 4 true.

(** A contest of three individuals, two per match, one round; the first
    competitor of a match scores 1 and the second 0. *)
Definition contest3 : ContestPopulation Z :=
  mkContestPopulation
    (mkPopulation (λ _, [1; 0]) 0 [0; 1; 2]%nat 3 true) 1 2.

Definition store3 : Store Z :=
  [mkIndividual 10 None; mkIndividual 20 None; mkIndividual 30 None].

(** Two individuals left of four, to be bred back to four. *)
Definition pop_short : Population (Z → Z) :=
  mkPopulation (λ c, c) 0 [2; 3]%nat 4 true.

(** A picker that takes the first two individuals it is given, and a
    combiner that adds up the chromosomes of the parents. *)
Definition pick_two (i : nat) (st : Store Z) (l : list addr) : picked :=
  Many (take 2 l).

Definition add_up (i : nat) (chromosomes : list Z) : Z :=
  foldr Z.add 0 chromosomes.

(** Two steps of an evolution: evaluate everybody, and keep the best
    two. *)
Definition step_evaluate : Step (Z → Z) :=
  λ p, Population_evaluate false p ;; mret p.

Definition step_survive : Step (Z → Z) :=
  Population_survive Population_evaluate (λ _, 0%nat) None (Some 2) false.

(** A predicate and a function for [filter] and [map]: is the chromosome
    even, and the individual itself. *)
Definition even_chromosome (a : addr) : M Z bool := λ st,
  match st !! a with
  | Some ind => Ok (Z.even (chromosome ind), st)
  | None => Err DanglingRef
  end.

Definition same_individual (a : addr) : M Z addr := mret a.

(** A contest like [contest3], of three rounds and three individuals
    per match. *)
Definition contest3x3 : ContestPopulation Z :=
  mkContestPopulation
    (mkPopulation (λ _, [1; 0]) 0 [0; 1; 2]%nat 3 true) 3 3.

(** A contest without individuals. *)
Definition contest0 : ContestPopulation Z :=
  mkContestPopulation (mkPopulation (λ _, [1; 0]) 0 [] 0 true) 1 2.

(** The store of [store3] after an evaluation of the first individual
    only. *)
Definition store3_half : Store Z :=
  [mkIndividual 10 (Some 7); mkIndividual 20 None; mkIndividual 30 None].

(** * Proofs *)

Section Monad.

Context {C : Type}.
Implicit Types st : Store C.

Lemma bind_Ok {A B} (m : M C A) (f : A → M C B) st y st' :
  (m ≫= f) st = Ok (y, st') ↔
  ∃ x st1, m st = Ok (x, st1) ∧ f x st1 = Ok (y, st').
Proof.
  unfold mbind, M_bind. split.
  - destruct (m st) as [[x st1]|e]; [eauto | discriminate].
  - intros (x & st1 & -> & Hf). exact Hf.
Qed.

Lemma bind_run {A B} (m : M C A) (f : A → M C B) st x st1 :
  m st = Ok (x, st1) → (m ≫= f) st = f x st1.
Proof. unfold mbind, M_bind. by intros ->. Qed.

Lemma bind_Err {A B} (m : M C A) (f : A → M C B) st e :
  m st = Err e → (m ≫= f) st = Err e.
Proof. unfold mbind, M_bind. by intros ->. Qed.

Lemma bind_assoc {A B D} (m : M C A) (f : A → M C B) (g : B → M C D) st :
  ((m ≫= f) ≫= g) st = (m ≫= λ x, f x ≫= g) st.
Proof. unfold mbind, M_bind. by destruct (m st) as [[x st1]|e]. Qed.

Lemma ret_Ok {A} (x y : A) st st' :
  (mret x : M C A) st = Ok (y, st') ↔ x = y ∧ st = st'.
Proof. unfold mret, M_ret. split; [by inversion 1 | by intros [-> ->]]. Qed.

Lemma load_Ok a st ind st' :
  load a st = Ok (ind, st') ↔ st !! a = Some ind ∧ st' = st.
Proof.
  unfold load. destruct (st !! a) as [i|]; split;
    [ by intros [= -> ->] | by intros [[= ->] ->] | done | by intros [? _] ].
Qed.

Lemma set_fitness_Ok a f st u st' :
  set_fitness a f st = Ok (u, st') ↔
  ∃ ind, st !! a = Some ind ∧ st' = <[a := with_fitness f ind]> st.
Proof.
  unfold set_fitness. destruct (st !! a) as [ind|]; split.
  - inversion 1. eauto.
  - intros (? & [= <-] & ->). by destruct u.
  - inversion 1.
  - by intros (? & ? & _).
Qed.

(** A loop keeps what each of its iterations keeps. *)
Lemma for_each_preserves {A} (R : Store C → Store C → Prop)
    `{!Reflexive R, !Transitive R} (body : A → M C unit) l :
  (∀ x st u st', x ∈ l → body x st = Ok (u, st') → R st st') →
  ∀ st u st', for_each body l st = Ok (u, st') → R st st'.
Proof.
  induction l as [|x l IH]; intros Hbody st u st' Hrun; simpl in Hrun.
  - apply ret_Ok in Hrun as [_ ->]. reflexivity.
  - apply bind_Ok in Hrun as (u1 & st1 & H1 & H2).
    transitivity st1.
    + eapply Hbody; [left | done].
    + eapply IH; [|done]. intros ? ? ? ? ?. apply Hbody. by right.
Qed.

Lemma collect_preserves {A B} (R : Store C → Store C → Prop)
    `{!Reflexive R, !Transitive R} (f : A → M C B) l :
  (∀ x st y st', x ∈ l → f x st = Ok (y, st') → R st st') →
  ∀ st ys st', collect f l st = Ok (ys, st') → R st st'.
Proof.
  induction l as [|x l IH]; intros Hf st ys st' Hrun; simpl in Hrun.
  - apply ret_Ok in Hrun as [_ ->]. reflexivity.
  - apply bind_Ok in Hrun as (y & st1 & H1 & H2).
    apply bind_Ok in H2 as (ys' & st2 & H2 & H3).
    apply ret_Ok in H3 as [_ ->].
    transitivity st1.
    + eapply Hf; [left | done].
    + eapply IH; [|done]. intros ? ? ? ? ?. apply Hf. by right.
Qed.

Lemma collect_length {A B} (f : A → M C B) l st ys st' :
  collect f l st = Ok (ys, st') → length ys = length l.
Proof.
  revert st ys st'.
  induction l as [|x l IH]; intros st ys st' Hrun; simpl in Hrun.
  - by apply ret_Ok in Hrun as [<- _].
  - apply bind_Ok in Hrun as (y & st1 & H1 & H2).
    apply bind_Ok in H2 as (ys' & st2 & H2 & H3).
    apply ret_Ok in H3 as [<- _]. simpl. f_equal. by eapply IH.
Qed.

(** Reading does not write. *)
Lemma collect_load l st inds st' :
  collect load l st = Ok (inds, st') →
  st' = st ∧ Forall2 (λ a ind, st !! a = Some ind) l inds.
Proof.
  revert inds. induction l as [|a l IH]; intros inds Hrun; simpl in Hrun.
  - apply ret_Ok in Hrun as [<- <-]. by split.
  - apply bind_Ok in Hrun as (ind & st1 & H1 & H2).
    apply load_Ok in H1 as [Ha ->].
    apply bind_Ok in H2 as (inds' & st2 & H2 & H3).
    apply ret_Ok in H3 as [<- <-].
    destruct (IH _ H2) as [-> Hall]. split; [done | by constructor].
Qed.

Lemma collect_load_live l st :
  Forall (live st) l → ∃ inds, collect load l st = Ok (inds, st).
Proof.
  induction 1 as [|a l Ha _ [inds IH]]; simpl.
  - by exists [].
  - apply lookup_lt_is_Some_2 in Ha as [ind Ha].
    exists (ind :: inds).
    erewrite bind_run by (apply load_Ok; eauto).
    by erewrite bind_run by done.
Qed.

End Monad.

(** ** Fitness in the store *)

Section Fitness.

Context {C : Type}.
Implicit Types st : Store C.

#[export] Instance keeps_fitness_refl : Reflexive (@keeps_fitness C).
Proof. by intros st. Qed.

#[export] Instance keeps_fitness_trans : Transitive (@keeps_fitness C).
Proof.
  intros st1 st2 st3 [Hl1 H1] [Hl2 H2]. split; [congruence | auto].
Qed.

Lemma fitness_at_live st a : is_Some (fitness_at st a) → live st a.
Proof.
  unfold fitness_at, live. destruct (st !! a) eqn:Ha.
  - intros _. by eapply lookup_lt_Some.
  - by intros [? ?].
Qed.

Lemma fitness_at_set st a b f ind :
  st !! a = Some ind →
  fitness_at (<[a := with_fitness f ind]> st) b =
  if decide (b = a) then f else fitness_at st b.
Proof.
  intros Ha. unfold fitness_at. destruct (decide (b = a)) as [->|Hne].
  - rewrite list_lookup_insert_eq; [done | by eapply lookup_lt_Some].
  - by rewrite list_lookup_insert_ne.
Qed.

Lemma chromosome_at_set st a b f ind :
  st !! a = Some ind →
  chromosome_at (<[a := with_fitness f ind]> st) b = chromosome_at st b.
Proof.
  intros Ha. unfold chromosome_at. destruct (decide (b = a)) as [->|Hne].
  - rewrite list_lookup_insert_eq; [by rewrite Ha | by eapply lookup_lt_Some].
  - by rewrite list_lookup_insert_ne.
Qed.

Lemma set_fitness_keeps a z st u st' :
  set_fitness a (Some z) st = Ok (u, st') → keeps_fitness st st'.
Proof.
  intros (ind & Ha & ->)%set_fitness_Ok. split; [apply length_insert|].
  intros b Hb. rewrite (fitness_at_set _ _ _ _ _ Ha). by case_decide.
Qed.

Lemma Individual_evaluate_Ok (ev : C → Z) lazy a st u st' :
  Individual_evaluate ev lazy a st = Ok (u, st') ↔
  ∃ ind, st !! a = Some ind ∧
    st' = if lazy && bool_decide (is_Some (fitness ind)) then st
          else <[a := with_fitness (Some (ev (chromosome ind))) ind]> st.
Proof.
  unfold Individual_evaluate. rewrite bind_Ok. split.
  - intros (ind & st1 & [Ha ->]%load_Ok & Hrun). exists ind. split; [done|].
    destruct (lazy && _).
    + by apply ret_Ok in Hrun as [_ <-].
    + apply set_fitness_Ok in Hrun as (ind' & Ha' & ->). congruence.
  - intros (ind & Ha & ->). exists ind, st. split; [by apply load_Ok|].
    destruct (lazy && _).
    + apply ret_Ok. by destruct u.
    + apply set_fitness_Ok. eauto.
Qed.

Lemma Individual_evaluate_keeps (ev : C → Z) lazy a st u st' :
  Individual_evaluate ev lazy a st = Ok (u, st') →
  keeps_fitness st st' ∧ is_Some (fitness_at st' a).
Proof.
  intros (ind & Ha & ->)%Individual_evaluate_Ok.
  destruct (lazy && _) eqn:Hskip.
  - split; [done|]. apply andb_true_iff in Hskip as [_ Hf%bool_decide_eq_true].
    unfold fitness_at. by rewrite Ha.
  - split.
    + split; [apply length_insert|].
      intros b Hb. rewrite (fitness_at_set _ _ _ _ _ Ha). by case_decide.
    + rewrite (fitness_at_set _ _ _ _ _ Ha). by rewrite decide_True.
Qed.

(** After an evaluation every individual of the population has a
    fitness. *)
Lemma Population_evaluate_evaluated lazy (self : Population (C → Z)) st u st' :
  Population_evaluate lazy self st = Ok (u, st') →
  keeps_fitness st st' ∧ evaluated st' (individuals self).
Proof.
  unfold Population_evaluate, evaluated.
  generalize (eval_function self) as ev. intros ev.
  revert st. induction (individuals self) as [|a l IH]; intros st Hrun.
  - apply ret_Ok in Hrun as [_ <-]. by split.
  - simpl in Hrun. apply bind_Ok in Hrun as (u1 & st1 & H1 & H2).
    apply Individual_evaluate_keeps in H1 as [Hk1 Ha].
    destruct (IH _ H2) as [Hk2 Hl]. split; [by transitivity st1|].
    constructor; [by apply Hk2 | done].
Qed.

(** A lazy evaluation of individuals that all have a fitness does
    nothing. *)
Lemma Population_evaluate_lazy_skip (self : Population (C → Z)) st :
  evaluated st (individuals self) →
  Population_evaluate true self st = Ok (tt, st).
Proof.
  unfold Population_evaluate, evaluated.
  induction 1 as [|a l Ha _ IH]; [done|]. simpl.
  rewrite (bind_run _ _ st tt st); [exact IH|].
  apply Individual_evaluate_Ok. unfold fitness_at in Ha.
  destruct (st !! a) as [ind|] eqn:Hind; [|by destruct Ha].
  exists ind. split; [done|]. by rewrite bool_decide_eq_true_2.
Qed.

(** An evaluation of live individuals does not fail. *)
Lemma Population_evaluate_total lazy (self : Population (C → Z)) st :
  Forall (live st) (individuals self) →
  ∃ st', Population_evaluate lazy self st = Ok (tt, st').
Proof.
  unfold Population_evaluate.
  generalize (eval_function self) as ev. intros ev.
  revert st. induction (individuals self) as [|a l IH]; intros st Hlive.
  - by exists st.
  - apply Forall_cons_1 in Hlive as [Ha Hl].
    destruct (lookup_lt_is_Some_2 st a Ha) as [ind Hind].
    assert (∃ st1, Individual_evaluate ev lazy a st = Ok (tt, st1)) as [st1 H1].
    { eexists. apply Individual_evaluate_Ok. eauto. }
    destruct (IH st1) as [st' H2].
    { apply Individual_evaluate_keeps in H1 as [[Hlen _] _].
      eapply list.Forall_impl; [exact Hl|]. unfold live. intros ? ?. lia. }
    exists st'. simpl. by erewrite bind_run.
Qed.

End Fitness.

(** ** Contests and fitness *)

Section ContestFitness.

Context {C : Type}.
Implicit Types st : Store C.
Implicit Types self : ContestPopulation C.

Lemma add_fitness_Ok a score st u st' :
  add_fitness a score st = Ok (u, st') ↔
  ∃ ind f, st !! a = Some ind ∧ fitness ind = Some f ∧
    st' = <[a := with_fitness (Some (f + score)) ind]> st.
Proof.
  unfold add_fitness. rewrite bind_Ok. split.
  - intros (ind & st1 & [Ha ->]%load_Ok & Hrun).
    destruct (fitness ind) as [f|] eqn:Hf; [|discriminate].
    apply set_fitness_Ok in Hrun as (ind' & Ha' & ->).
    exists ind, f. split_and!; [done | done | congruence].
  - intros (ind & f & Ha & Hf & ->). exists ind, st.
    split; [by apply load_Ok|]. rewrite Hf. apply set_fitness_Ok. eauto.
Qed.

Lemma add_fitness_keeps a score st u st' :
  add_fitness a score st = Ok (u, st') → keeps_fitness st st'.
Proof.
  intros (ind & f & Ha & Hf & ->)%add_fitness_Ok. split; [apply length_insert|].
  intros b Hb. rewrite (fitness_at_set _ _ _ _ _ Ha). by case_decide.
Qed.

Lemma play_match_keeps (eval : Contest C) competitors st u st' :
  play_match eval competitors st = Ok (u, st') → keeps_fitness st st'.
Proof.
  unfold play_match. intros (inds & st1 & [-> _]%collect_load & Hrun)%bind_Ok.
  revert Hrun. apply for_each_preserves; [apply _ ..|].
  intros p ? ? ? _. apply add_fitness_keeps.
Qed.

(** Drawing the offsets leaves the store alone. *)
Lemma draw_offsets_store rnd self st offsets st' :
  draw_offsets rnd self st = Ok (offsets, st') → st' = st.
Proof.
  unfold draw_offsets. intros (drawn & st1 & Hdraw & [_ <-]%ret_Ok)%bind_Ok.
  symmetry. revert Hdraw. apply (collect_preserves eq).
  intros j s z s' _. unfold lift. destruct (randint _ _ _); by intros [= _ ->].
Qed.

Lemma play_round_keeps rnd self st u st' :
  play_round rnd self st = Ok (u, st') → keeps_fitness st st'.
Proof.
  unfold play_round.
  intros (offsets & st1 & ->%draw_offsets_store & Hrun)%bind_Ok.
  revert Hrun. apply for_each_preserves; [apply _ ..|].
  intros m ? ? ? _. apply play_match_keeps.
Qed.

Lemma set_all_evaluated z l st u st' :
  for_each (λ a, set_fitness a (Some z)) l st = Ok (u, st') →
  keeps_fitness st st' ∧ evaluated st' l.
Proof.
  revert st. induction l as [|a l IH]; intros st Hrun; simpl in Hrun.
  - apply ret_Ok in Hrun as [_ <-]. split; [done | constructor].
  - apply bind_Ok in Hrun as (u1 & st1 & H1 & H2).
    destruct (IH _ H2) as [Hk2 Hl].
    pose proof (set_fitness_keeps _ _ _ _ _ H1) as Hk1.
    split; [by transitivity st1|]. constructor; [|done]. apply Hk2.
    apply set_fitness_Ok in H1 as (ind & Ha & ->).
    rewrite (fitness_at_set _ _ _ _ _ Ha). by rewrite decide_True.
Qed.

Lemma all_evaluated_Ok self st b st' :
  all_evaluated self st = Ok (b, st') →
  st' = st ∧ (b = true → evaluated st (individuals (base self))).
Proof.
  unfold all_evaluated.
  intros (inds & st1 & [-> Hall]%collect_load & [<- <-]%ret_Ok)%bind_Ok.
  split; [done|]. intros Hb. unfold evaluated.
  induction Hall as [|a ind l inds Ha _ IH]; [constructor|].
  simpl in Hb. apply andb_true_iff in Hb as [Hf%bool_decide_eq_true Hb].
  constructor; [|by apply IH]. unfold fitness_at. by rewrite Ha.
Qed.

Lemma all_evaluated_true self st :
  evaluated st (individuals (base self)) → all_evaluated self st = Ok (true, st).
Proof.
  unfold all_evaluated, evaluated. intros Hall.
  assert (∃ inds, collect load (individuals (base self)) st = Ok (inds, st)
            ∧ forallb (λ ind, bool_decide (is_Some (fitness ind))) inds = true)
    as (inds & Hload & Hb).
  { induction Hall as [|a l Ha _ (inds & Hload & Hb)]; [by exists []|].
    unfold fitness_at in Ha. destruct (st !! a) as [ind|] eqn:Hind;
      [|by destruct Ha].
    exists (ind :: inds). split.
    - simpl. rewrite (bind_run _ _ st ind st) by by apply load_Ok.
      by rewrite (bind_run _ _ st inds st).
    - simpl. by rewrite bool_decide_eq_true_2. }
  rewrite (bind_run _ _ _ _ _ Hload). by rewrite Hb.
Qed.

(** A successful contest evaluation leaves every individual of the
    population with a fitness. *)
Lemma ContestPopulation_evaluate_evaluated rnd lazy self st u st' :
  ContestPopulation_evaluate rnd lazy self st = Ok (u, st') →
  length st' = length st ∧ evaluated st' (individuals (base self)).
Proof.
  unfold ContestPopulation_evaluate.
  intros (b & st1 & Htest & Hrun)%bind_Ok.
  assert (st1 = st ∧ (b = true → evaluated st (individuals (base self))))
    as [-> Hb].
  { destruct lazy; simpl in Htest.
    - by apply all_evaluated_Ok in Htest.
    - by apply ret_Ok in Htest as [<- <-]. }
  destruct b.
  - apply ret_Ok in Hrun as [_ <-]. auto.
  - apply bind_Ok in Hrun as (u1 & st2 & Hzero & Hrounds).
    apply set_all_evaluated in Hzero as [[Hlen _] Hev].
    assert (keeps_fitness st2 st') as [Hlen' Hk].
    { revert Hrounds. apply for_each_preserves; [apply _ ..|].
      intros r ? ? ? _. apply play_round_keeps. }
    split; [congruence|]. eapply list.Forall_impl; [exact Hev|]. auto.
Qed.

(** A lazy contest evaluation of individuals that all have a fitness
    returns at once. *)
Lemma ContestPopulation_evaluate_lazy_skip rnd self st :
  evaluated st (individuals (base self)) →
  ContestPopulation_evaluate rnd true self st = Ok (tt, st).
Proof.
  intros Hev. unfold ContestPopulation_evaluate, lazy_and.
  by rewrite (bind_run _ _ _ _ _ (all_evaluated_true _ _ Hev)).
Qed.

(** Resetting leaves every individual of the population without a
    fitness. *)
Lemma reset_fitness_unevaluated self st u st' :
  reset_fitness self st = Ok (u, st') →
  length st' = length st ∧ Forall (unevaluated st') (individuals (base self)).
Proof.
  unfold reset_fitness. revert st.
  induction (individuals (base self)) as [|a l IH]; intros st Hrun;
    simpl in Hrun.
  - apply ret_Ok in Hrun as [_ <-]. by split.
  - apply bind_Ok in Hrun as (u1 & st1 & H1 & H2).
    destruct (IH _ H2) as [Hlen Hl].
    apply set_fitness_Ok in H1 as (ind & Ha & Hst1).
    split; [by rewrite Hlen, Hst1, length_insert|]. constructor; [|done].
    assert (unevaluated st1 a) as Hnone.
    { exists (with_fitness None ind). split; [|done]. rewrite Hst1.
      apply list_lookup_insert_eq. by eapply lookup_lt_Some. }
    assert (∀ b, unevaluated st1 b → unevaluated st' b) as Hkeep; [|auto].
    clear -H2. revert st1 H2. induction l as [|c l IHl]; intros st1 H2 b Hb.
    + by apply ret_Ok in H2 as [_ <-].
    + simpl in H2. apply bind_Ok in H2 as (u2 & st2 & Hc & H2).
      eapply IHl; [exact H2|].
      apply set_fitness_Ok in Hc as (ind & Hc & ->).
      destruct Hb as (indb & Hindb & Hfb).
      destruct (decide (b = c)) as [->|Hne].
      * exists (with_fitness None ind). split; [|done].
        apply list_lookup_insert_eq. by eapply lookup_lt_Some.
      * exists indb. split; [|done]. by rewrite list_lookup_insert_ne.
Qed.

End ContestFitness.

(** ** Evaluation and invalidation *)

Example pop1234_init :
  Population_init [1; 2; 3; 4] (λ c : Z, c) true [] = Ok (pop1234, store1234).
Proof. reflexivity. Qed.

Section Invalidation.

Context {C : Type}.
Implicit Types st : Store C.

(** C9: a lazy evaluation right after a lazy evaluation changes no
    fitness, for a population and for a contest population (whatever
    the random draws of either call); and a lazy evaluation of a contest
    population whose individuals all have a fitness returns at once,
    with the store as it was. *)
Theorem evaluate_lazy_idempotent :
  (∀ (self : Population (C → Z)) st u st1,
     Population_evaluate true self st = Ok (u, st1) →
     Population_evaluate true self st1 = Ok (tt, st1)) ∧
  (∀ rnd rnd' (self : ContestPopulation C) st u st1,
     ContestPopulation_evaluate rnd true self st = Ok (u, st1) →
     ContestPopulation_evaluate rnd' true self st1 = Ok (tt, st1)) ∧
  (∀ rnd (self : ContestPopulation C) st,
     evaluated st (individuals (base self)) →
     ContestPopulation_evaluate rnd true self st = Ok (tt, st)).
Proof.
  split_and!.
  - intros self st u st1 [_ Hev]%Population_evaluate_evaluated.
    by apply Population_evaluate_lazy_skip.
  - intros rnd rnd' self st u st1 [_ Hev]%ContestPopulation_evaluate_evaluated.
    by apply ContestPopulation_evaluate_lazy_skip.
  - intros rnd self st. apply ContestPopulation_evaluate_lazy_skip.
Qed.

(** C6: right after a successful [map], [filter] or [survive] of a
    contest population, every individual that is left has no fitness. *)
Theorem contest_fitness_invalidated :
  (∀ func (self self' : ContestPopulation C) st st',
     ContestPopulation_map func self st = Ok (self', st') →
     Forall (unevaluated st') (individuals (base self'))) ∧
  (∀ func (self self' : ContestPopulation C) st st',
     ContestPopulation_filter func self st = Ok (self', st') →
     Forall (unevaluated st') (individuals (base self'))) ∧
  (∀ rnd_eval rnd fraction n luck (self self' : ContestPopulation C) st st',
     ContestPopulation_survive rnd_eval rnd fraction n luck self st
       = Ok (self', st') →
     Forall (unevaluated st') (individuals (base self'))).
Proof.
  split_and!.
  - intros func self self' st st'. unfold ContestPopulation_map.
    intros (b & st1 & _ & (u & st2 & Hreset & [<- <-]%ret_Ok)%bind_Ok)%bind_Ok.
    by apply reset_fitness_unevaluated in Hreset as [_ Hall].
  - intros func self self' st st'. unfold ContestPopulation_filter.
    intros (b & st1 & _ & (u & st2 & Hreset & [<- <-]%ret_Ok)%bind_Ok)%bind_Ok.
    by apply reset_fitness_unevaluated in Hreset as [_ Hall].
  - intros rnd_eval rnd fraction n luck self self' st st'.
    unfold ContestPopulation_survive.
    intros (b & st1 & _ & (u & st2 & Hreset & [<- <-]%ret_Ok)%bind_Ok)%bind_Ok.
    by apply reset_fitness_unevaluated in Hreset as [_ Hall].
Qed.

End Invalidation.

Lemma evaluate_lazy_idempotent_witness :
  (∃ st1, Population_evaluate true pop1234 store1234 = Ok (tt, st1) ∧
          Population_evaluate true pop1234 st1 = Ok (tt, st1)) ∧
  (∃ st1, ContestPopulation_evaluate (λ _ _, 1%nat) true contest3 store3
            = Ok (tt, st1) ∧
          ContestPopulation_evaluate (λ _ _, 2%nat) true contest3 st1
            = Ok (tt, st1)).
Proof.
  destruct (evaluate_lazy_idempotent (C := Z)) as (Hplain & Hcontest & _).
  split.
  - eexists. split; [reflexivity|].
    apply (Hplain pop1234 store1234 tt). reflexivity.
  - eexists. split; [reflexivity|].
    apply (Hcontest (λ _ _, 1%nat) _ contest3 store3 tt). reflexivity.
Defined.

Lemma contest_fitness_invalidated_witness :
  ∃ self' st',
    ContestPopulation_survive (λ _ _, 1%nat) (λ _, 0%nat) None (Some 2) false
      contest3 store3 = Ok (self', st') ∧
    individuals (base self') = [0; 1]%nat ∧
    Forall (unevaluated st') (individuals (base self')).
Proof.
  destruct (contest_fitness_invalidated (C := Z)) as (_ & _ & Hsurvive).
  eexists _, _. split; [reflexivity|]. split; [reflexivity|].
  apply (Hsurvive (λ _ _, 1%nat) (λ _, 0%nat) None (Some 2) false contest3 _
           store3).
  reflexivity.
Defined.

(** ** Sorting *)

Section Sorting.

Context {A : Type}.
Implicit Types l : list (Z * A).

Lemma key_le_refl reverse x : key_le reverse x x = true.
Proof. unfold key_le. destruct reverse; lia. Qed.

Lemma key_le_total reverse x y :
  key_le reverse x y = false → key_le reverse y x = true.
Proof. unfold key_le. destruct reverse; lia. Qed.

Lemma key_le_trans reverse x y z :
  key_le reverse x y = true → key_le reverse y z = true →
  key_le reverse x z = true.
Proof. unfold key_le. destruct reverse; lia. Qed.

Lemma insert_by_key_perm reverse x l : insert_by_key reverse x l ≡ₚ x :: l.
Proof.
  induction l as [|y l IH]; simpl; [done|].
  destruct (key_le reverse x.1 y.1); [done|].
  rewrite IH. apply Permutation_swap.
Qed.

Lemma sorted_perm reverse l : sorted reverse l ≡ₚ l.
Proof.
  induction l as [|x l IH]; simpl; [done|].
  by rewrite insert_by_key_perm, IH.
Qed.

Lemma sorted_length reverse l : length (sorted reverse l) = length l.
Proof. apply Permutation_length, sorted_perm. Qed.

Lemma insert_by_key_sorted reverse x l :
  StronglySorted (λ p q, key_le reverse p.1 q.1 = true) l →
  StronglySorted (λ p q, key_le reverse p.1 q.1 = true)
                 (insert_by_key reverse x l).
Proof.
  induction 1 as [|y l Hl IH Hy]; simpl.
  - repeat constructor.
  - destruct (key_le reverse x.1 y.1) eqn:Hxy.
    + constructor; [by constructor|]. constructor; [done|].
      eapply list.Forall_impl; [exact Hy|].
      intros z Hz. simpl in Hz. by eapply key_le_trans.
    + constructor; [done|]. rewrite insert_by_key_perm.
      constructor; [by apply key_le_total | done].
Qed.

Lemma sorted_sorted reverse l :
  StronglySorted (λ p q, key_le reverse p.1 q.1 = true) (sorted reverse l).
Proof.
  induction l as [|x l IH]; simpl; [constructor|].
  by apply insert_by_key_sorted.
Qed.

Lemma insert_by_key_filter reverse x l k :
  filter (λ p, p.1 = k) (insert_by_key reverse x l)
  = filter (λ p, p.1 = k) (x :: l).
Proof.
  induction l as [|y l IH]; simpl; [done|].
  destruct (key_le reverse x.1 y.1) eqn:Hxy; [done|].
  assert (x.1 ≠ y.1) as Hne.
  { intros Heq. rewrite Heq, key_le_refl in Hxy. discriminate. }
  rewrite (filter_cons _ y), IH, !filter_cons.
  repeat case_decide; congruence.
Qed.

(** The sort is stable: the elements of one key stay in the order they
    had. *)
Lemma sorted_stable reverse l k :
  filter (λ p, p.1 = k) (sorted reverse l) = filter (λ p, p.1 = k) l.
Proof.
  induction l as [|x l IH]; simpl; [done|].
  by rewrite insert_by_key_filter, !filter_cons, IH.
Qed.

Lemma py_slice_to_length {B} (l : list B) k :
  0 ≤ k ≤ Z.of_nat (length l) → length (py_slice_to l k) = Z.to_nat k.
Proof.
  intros Hk. unfold py_slice_to.
  rewrite (proj2 (Z.leb_le 0 k)) by lia. rewrite length_take. lia.
Qed.

Lemma py_slice_to_prefix {B} (l : list B) k :
  ∃ m, py_slice_to l k = take m l ∧ (0 ≤ k → m = Z.to_nat k).
Proof.
  unfold py_slice_to. destruct (0 <=? k) eqn:Hk.
  - by eexists.
  - eexists. split; [done|]. lia.
Qed.

End Sorting.

(** ** Survival *)

Section Survive.

Context {C : Type}.
Implicit Types st : Store C.

Lemma fitness_key_Ok a st f st' :
  fitness_key a st = Ok (f, st') ↔ st' = st ∧ fitness_at st a = Some f.
Proof.
  unfold fitness_key, fitness_at. rewrite bind_Ok. split.
  - intros (ind & st1 & [Ha ->]%load_Ok & Hrun). rewrite Ha.
    destruct (fitness ind); [|discriminate].
    by apply ret_Ok in Hrun as [<- <-].
  - intros [-> Hf]. destruct (st !! a) as [ind|] eqn:Ha; [|discriminate].
    exists ind, st. split; [by apply load_Ok|]. by rewrite Hf.
Qed.

Lemma keyed_Ok l st kl st' :
  keyed l st = Ok (kl, st') →
  st' = st ∧ map snd kl = l ∧
  Forall (λ p, fitness_at st p.2 = Some p.1) kl.
Proof.
  unfold keyed. revert kl.
  induction l as [|a l IH]; intros kl Hrun; simpl in Hrun.
  - apply ret_Ok in Hrun as [<- <-]. by split_and!.
  - apply bind_Ok in Hrun as (p & st1 & Hp & Hrun).
    apply bind_Ok in Hp as (f & st2 & [-> Hf]%fitness_key_Ok & [<- <-]%ret_Ok).
    apply bind_Ok in Hrun as (kl' & st3 & Hkl & [<- <-]%ret_Ok).
    destruct (IH _ Hkl) as (-> & <- & Hall).
    split_and!; [done | done | by constructor].
Qed.

Lemma keyed_total l st : evaluated st l → ∃ kl, keyed l st = Ok (kl, st).
Proof.
  unfold keyed. induction 1 as [|a l [f Hf] _ [kl IH]]; [by exists []|].
  exists ((f, a) :: kl). simpl.
  rewrite (bind_run _ _ st (f, a) st).
  - by rewrite (bind_run _ _ st kl st).
  - rewrite (bind_run _ _ st f st); [done|]. by apply fitness_key_Ok.
Qed.

Lemma weights_store l st ws st' :
  collect fitness_key l st = Ok (ws, st') → st' = st.
Proof.
  intros Hrun. symmetry. revert Hrun. apply (collect_preserves eq).
  by intros a s f s' _ [-> _]%fitness_key_Ok.
Qed.

Lemma choices_length {A} rnd (population : list A) k weights picks :
  choices rnd population k weights = Ok picks →
  length picks = Z.to_nat k ∧ ∀ x, x ∈ picks → x ∈ population.
Proof.
  unfold choices. destruct population as [|d population]; [discriminate|].
  assert (length (d :: population) ≠ 0%nat) as Hlen by done.
  revert Hlen. generalize (d :: population) as P. intros P Hlen.
  destruct (_ <=? _); [discriminate|]. intros [= <-].
  split; [by rewrite length_map, length_seq|].
  intros x (j & -> & _)%list_elem_of_fmap.
  apply list_elem_of_In, nth_In. by apply Nat.mod_upper_bound.
Qed.

(** What a successful [survive] went through. *)
Lemma Population_survive_Ok {E} evaluate rnd fraction n luck
    (self self' : Population E) st st' :
  Population_survive evaluate rnd fraction n luck self st = Ok (self', st') →
  ∃ size u,
    resulting_size fraction n (length (individuals self)) = Ok size ∧
    evaluate true self st = Ok (u, st') ∧
    size ≠ 0 ∧ size ≤ Z.of_nat (length (individuals self)) ∧
    if luck then
      ∃ weights inds,
        collect fitness_key (individuals self) st' = Ok (weights, st') ∧
        choices rnd (individuals self) size weights = Ok inds ∧
        self' = set_individuals inds self
    else
      ∃ kl,
        keyed (individuals self) st' = Ok (kl, st') ∧
        self' = set_individuals
                  (py_slice_to (map snd (sorted (maximize self) kl)) size) self.
Proof.
  unfold Population_survive.
  intros (size & st0 & Hsize & Hrun)%bind_Ok.
  unfold lift in Hsize.
  destruct (resulting_size _ _ _) as [size'|] eqn:Hrs; [|discriminate].
  injection Hsize as -> ->.
  apply bind_Ok in Hrun as (u & st1 & Heval & Hrun).
  destruct (size =? 0) eqn:H0; [discriminate|].
  destruct (size >? _) eqn:Hlen; [discriminate|].
  assert (size ≠ 0 ∧ size ≤ Z.of_nat (length (individuals self))) as [? ?] by lia.
  destruct luck.
  - apply bind_Ok in Hrun as (weights & st2 & Hw & Hrun).
    pose proof (weights_store _ _ _ _ Hw) as ->.
    apply bind_Ok in Hrun as (inds & st3 & Hch & [<- <-]%ret_Ok).
    unfold lift in Hch.
    destruct (choices _ _ _ _) as [inds'|] eqn:Hchoices; [|discriminate].
    injection Hch as -> ->. exists size, u. split_and!; eauto.
  - apply bind_Ok in Hrun as (kl & st2 & Hk & [<- <-]%ret_Ok).
    destruct (keyed_Ok _ _ _ _ Hk) as (-> & _ & _).
    exists size, u. split_and!; eauto.
Qed.

End Survive.

Section SurviveLaws.

Context {C : Type}.
Implicit Types st : Store C.
Implicit Types self : Population (C → Z).

Lemma Population_survive_total self rnd fraction n size st :
  resulting_size fraction n (length (individuals self)) = Ok size →
  size ≠ 0 → size ≤ Z.of_nat (length (individuals self)) →
  Forall (live st) (individuals self) →
  is_Ok (Population_survive Population_evaluate rnd fraction n false self st).
Proof.
  intros Hsize H0 Hlen Hlive. unfold Population_survive.
  rewrite Hsize. unfold lift.
  rewrite (bind_run _ _ st size st) by done.
  destruct (Population_evaluate_total true self st Hlive) as [st1 Heval].
  rewrite (bind_run _ _ _ _ _ Heval).
  rewrite (proj2 (Z.eqb_neq size 0)) by done.
  destruct (size >? _) eqn:Hgt; [lia|].
  apply Population_evaluate_evaluated in Heval as [_ Hev].
  destruct (keyed_total _ _ Hev) as [kl Hkl].
  by rewrite (bind_run _ _ _ _ _ Hkl).
Qed.

Lemma py_slice_to_negative {B} (l : list B) k :
  k < 0 →
  Z.of_nat (length (py_slice_to l k)) = Z.max 0 (Z.of_nat (length l) + k).
Proof.
  intros Hk. unfold py_slice_to.
  rewrite (proj2 (Z.leb_gt 0 k)) by done. rewrite length_take. lia.
Qed.

(** C3: the guards of [survive] let a negative size through.  For
    every negative [n], [survive(n=n)] without luck on a population of
    live individuals raises nothing, although the size it computed,
    [n], is neither more than 0 nor the length of the result: the slice
    up to [n] drops the last [-n] of the sorted individuals, so that
    [len + n] of them are left, and nobody when that is not more than
    0. *)
Theorem survive_negative_size self rnd n st :
  n < 0 →
  Forall (live st) (individuals self) →
  ∃ self' st',
    Population_survive Population_evaluate rnd None (Some n) false self st
      = Ok (self', st') ∧
    resulting_size None (Some n) (length (individuals self)) = Ok n ∧
    Z.of_nat (length (individuals self'))
      = Z.max 0 (Z.of_nat (length (individuals self)) + n) ∧
    Z.of_nat (length (individuals self')) ≠ n.
Proof.
  intros Hneg Hlive.
  pose proof (Population_survive_total self rnd None (Some n) n st eq_refl)
    as Hok.
  destruct (Population_survive _ _ _ _ _ _ _) as [[self' st']|e] eqn:Hrun;
    [|exfalso; apply Hok; [lia | lia | done]].
  exists self', st'. split; [done|]. split; [done|].
  apply Population_survive_Ok in Hrun
    as (size & u & [= <-] & _ & _ & _ & kl & (_ & Hkl & _)%keyed_Ok & ->).
  simpl. rewrite py_slice_to_negative by done.
  rewrite length_map, sorted_length, <- (length_map snd), Hkl. lia.
Qed.

End SurviveLaws.

Lemma survive_negative_size_witness :
  (∃ self' st',
     Population_survive Population_evaluate (λ _, 0%nat) None (Some (-1)) false
       pop1234 store1234 = Ok (self', st') ∧
     Z.of_nat (length (individuals self')) = 3) ∧
  (∃ self' st',
     Population_survive Population_evaluate (λ _, 0%nat) None (Some (-10))
       false pop1234 store1234 = Ok (self', st') ∧
     individuals self' = []).
Proof.
  assert (Forall (live store1234) (individuals pop1234)) as Hlive.
  { unfold live. repeat constructor. }
  split.
  - destruct (survive_negative_size pop1234 (λ _, 0%nat) (-1) store1234)
      as (self' & st' & Hrun & _ & Hlen & _); [lia | done |].
    by exists self', st'.
  - destruct (survive_negative_size pop1234 (λ _, 0%nat) (-10) store1234)
      as (self' & st' & Hrun & _ & Hlen & _); [lia | done |].
    exists self', st'. split; [done|].
    apply length_zero_iff_nil. simpl in Hlen. lia.
Defined.

Section Truncation.

Context {C : Type}.
Implicit Types st : Store C.
Implicit Types self : Population (C → Z).

Lemma StronglySorted_take_drop {A} (R : A → A → Prop) l m a b :
  StronglySorted R l → a ∈ take m l → b ∈ drop m l → R a b.
Proof.
  intros Hs. revert m. induction Hs as [|x l Hs IH Hx]; intros m Ha Hb.
  - rewrite take_nil in Ha. by apply elem_of_nil in Ha.
  - destruct m as [|m]; simpl in Ha, Hb; [by apply elem_of_nil in Ha|].
    apply elem_of_cons in Ha as [->|Ha]; [|by eapply IH].
    rewrite List.Forall_forall in Hx. apply Hx, list_elem_of_In.
    revert Hb. apply subseteq_drop.
Qed.

Lemma ranked_sorted st reverse (kl : list (Z * addr)) :
  Forall (λ p, fitness_at st p.2 = Some p.1) kl →
  StronglySorted (λ p q, key_le reverse p.1 q.1 = true) kl →
  StronglySorted (ranked_before st reverse) (map snd kl).
Proof.
  intros Hfit Hs. induction Hs as [|p kl Hs IH Hp]; simpl; [constructor|].
  apply Forall_cons_1 in Hfit as [Hfp Hfit].
  constructor; [by apply IH|].
  apply Forall_map. rewrite List.Forall_forall in Hp, Hfit.
  apply List.Forall_forall. intros q Hq. exists p.1, q.1. auto.
Qed.

Lemma ranked_filter st f (kl : list (Z * addr)) :
  Forall (λ p, fitness_at st p.2 = Some p.1) kl →
  filter (λ a, fitness_at st a = Some f) (map snd kl)
  = map snd (filter (λ p, p.1 = f) kl).
Proof.
  induction 1 as [|p kl Hp _ IH]; [done|].
  simpl. rewrite !filter_cons, IH. rewrite Hp.
  repeat case_decide; simplify_eq; done.
Qed.

(** C8: a successful [survive] without luck keeps the front of the
    individuals sorted by fitness, downwards if [maximize] and upwards
    otherwise: the sorted sequence is a rearrangement of the
    individuals in which those of equal fitness are in the order they
    had, the survivors are its slice up to the computed size (its first
    [size] elements when the size is not negative), and when [maximize]
    is set every survivor has a fitness at least that of every
    individual of the sorted sequence that was cut off. *)
Theorem survive_truncation self rnd fraction n st self' st' :
  Population_survive Population_evaluate rnd fraction n false self st
    = Ok (self', st') →
  ∃ size ranked,
    resulting_size fraction n (length (individuals self)) = Ok size ∧
    ranked ≡ₚ individuals self ∧
    StronglySorted (ranked_before st' (maximize self)) ranked ∧
    (∀ f, filter (λ a, fitness_at st' a = Some f) ranked
          = filter (λ a, fitness_at st' a = Some f) (individuals self)) ∧
    individuals self' = py_slice_to ranked size ∧
    (0 ≤ size → individuals self' = take (Z.to_nat size) ranked) ∧
    (∀ f, filter (λ a, fitness_at st' a = Some f) (individuals self')
          `prefix_of`
          filter (λ a, fitness_at st' a = Some f) (individuals self)) ∧
    (maximize self = true →
     ∀ a b, a ∈ individuals self' →
            b ∈ drop (length (individuals self')) ranked →
            ∃ fa fb, fitness_at st' a = Some fa ∧
                     fitness_at st' b = Some fb ∧ fb ≤ fa).
Proof.
  intros (size & u & Hsize & _ & H0 & Hlen & kl & Hkl & ->)
    %Population_survive_Ok.
  apply keyed_Ok in Hkl as (_ & Hl & Hfit).
  set (ranked := map snd (sorted (maximize self) kl)).
  assert (Forall (λ p, fitness_at st' p.2 = Some p.1)
                 (sorted (maximize self) kl)) as Hfit'.
  { by rewrite sorted_perm. }
  assert (StronglySorted (ranked_before st' (maximize self)) ranked) as Hsorted.
  { apply ranked_sorted; [done | apply sorted_sorted]. }
  assert (∀ f, filter (λ a, fitness_at st' a = Some f) ranked
               = filter (λ a, fitness_at st' a = Some f) (individuals self))
    as Hstable.
  { intros f. unfold ranked. rewrite <- Hl.
    by rewrite !ranked_filter, sorted_stable. }
  destruct (py_slice_to_prefix ranked size) as (m & Hm & Hm0).
  exists size, ranked. simpl. split_and!.
  - done.
  - unfold ranked. by rewrite sorted_perm, Hl.
  - done.
  - done.
  - done.
  - intros Hpos. by rewrite Hm, Hm0.
  - intros f. rewrite <- Hstable, Hm.
    rewrite <- (take_drop m ranked) at 2. rewrite list.filter_app.
    by eexists.
  - intros Hmax a b Ha Hb. rewrite Hm in Ha, Hb.
    rewrite length_take in Hb.
    destruct (decide (m ≤ length ranked)%nat) as [Hle|Hgt].
    + rewrite Nat.min_l in Hb by done.
      destruct (StronglySorted_take_drop _ _ _ _ _ Hsorted Ha Hb)
        as (fa & fb & Hfa & Hfb & Hkey).
      exists fa, fb. split_and!; [done | done |].
      rewrite Hmax in Hkey. unfold key_le in Hkey. lia.
    + rewrite Nat.min_r, drop_all in Hb by lia. by apply elem_of_nil in Hb.
Qed.

End Truncation.

Lemma survive_truncation_witness :
  ∃ self' st' size ranked,
    Population_survive Population_evaluate (λ _, 0%nat) None (Some 2) false
      pop1234 store1234 = Ok (self', st') ∧
    resulting_size None (Some 2) (length (individuals pop1234)) = Ok size ∧
    individuals self' = py_slice_to ranked size ∧
    StronglySorted (ranked_before st' true) ranked.
Proof.
  eexists _, _.
  destruct (survive_truncation pop1234 (λ _, 0%nat) None (Some 2) store1234
              _ _ eq_refl)
    as (size & ranked & Hsize & _ & Hsorted & _ & Hslice & _).
  exists size, ranked. split_and!; [reflexivity | done | done | done].
Defined.

(** ** The example of the four chromosomes *)

(** C2, as the code has it: from [Population(chromosomes=[1,2,3,4],
    eval_function=lambda c: c, maximize=True)], [survive(n=2)] leaves
    exactly two individuals, with the chromosomes 4 and 3, 4 first. *)
Theorem survive_1234 rnd :
  ∃ self' st',
    (Population_init [1; 2; 3; 4] (λ c : Z, c) true ≫=
     Population_survive Population_evaluate rnd None (Some 2) false) []
      = Ok (self', st') ∧
    map (chromosome_at st') (individuals self') = [Some 4; Some 3].
Proof. eexists _, _. split; reflexivity. Qed.

(** C2 as claimed fails: the survivors are not in the order 3, 4. *)
Lemma survive_1234_counterexample :
  ∃ self' st',
    (Population_init [1; 2; 3; 4] (λ c : Z, c) true ≫=
     Population_survive Population_evaluate (λ _, 0%nat) None (Some 2) false) []
      = Ok (self', st') ∧
    map (chromosome_at st') (individuals self') ≠ [Some 3; Some 4].
Proof. eexists _, _. split; [reflexivity | discriminate]. Qed.

(** ** Breeding *)

Section Breed.

Context {C E : Type}.
Implicit Types st : Store C.
Implicit Types self : Population E.
Implicit Types parent_picker : nat → Store C → list addr → picked.
Implicit Types combiner : nat → list C → C.

Lemma read_chromosomes l st chromosomes st' :
  collect (λ a, ind ← load a; mret (chromosome ind)) l st
    = Ok (chromosomes, st') →
  st' = st ∧ Forall2 (λ a c, chromosome_at st a = Some c) l chromosomes.
Proof.
  revert chromosomes.
  induction l as [|a l IH]; intros chromosomes Hrun; simpl in Hrun.
  - apply ret_Ok in Hrun as [<- <-]. by split.
  - apply bind_Ok in Hrun as (c & st1 & Hc & Hrun).
    apply bind_Ok in Hc as (ind & st2 & [Ha ->]%load_Ok & [<- <-]%ret_Ok).
    apply bind_Ok in Hrun as (cs & st3 & Hcs & [<- <-]%ret_Ok).
    destruct (IH _ Hcs) as [-> Hall]. split; [done|].
    constructor; [|done]. unfold chromosome_at. by rewrite Ha.
Qed.

Lemma read_chromosomes_live l st :
  Forall (live st) l →
  ∃ chromosomes,
    collect (λ a, ind ← load a; mret (chromosome ind)) l st
      = Ok (chromosomes, st).
Proof.
  induction 1 as [|a l Ha _ [cs IH]]; [by exists []|].
  destruct (lookup_lt_is_Some_2 st a Ha) as [ind Hind].
  exists (chromosome ind :: cs). simpl.
  rewrite (bind_run _ _ st (chromosome ind) st).
  - by rewrite (bind_run _ _ _ _ _ IH).
  - rewrite (bind_run _ _ st ind st); [done | by apply load_Ok].
Qed.

(** What the loop did when it came to its end: it appended one new
    object per iteration to the store and to the population, and called
    the picker with the same individuals every time. *)
Lemma breed_loop_Ok parent_picker combiner size_before iters self st
    self' log st' :
  breed_loop parent_picker combiner size_before iters self st
    = Ok ((self', log), st') →
  (size_before ≤ length (individuals self))%nat →
  ∃ children,
    st' = st ++ children ∧ length children = length iters ∧
    self' = set_individuals
              (individuals self ++ seq (length st) (length iters)) self ∧
    log = replicate (length iters) (take size_before (individuals self)) ∧
    ∀ k i child, iters !! k = Some i → children !! k = Some child →
      bred_from parent_picker combiner (take size_before (individuals self))
                i (st ++ take k children) child.
Proof.
  revert self st self' log.
  induction iters as [|i iters IH]; intros self st self' log Hrun Hsize;
    simpl in Hrun.
  - apply ret_Ok in Hrun as [[= <- <-] <-]. exists [].
    rewrite app_nil_r. split_and!; try done.
    destruct self. unfold set_individuals. simpl. by rewrite app_nil_r.
  - apply bind_Ok in Hrun as (parents & st0 & [= <- <-] & Hrun).
    apply bind_Ok in Hrun as (cs & st1 & [-> Hcs]%read_chromosomes & Hrun).
    apply bind_Ok in Hrun as (child & st2 & [= <- <-] & Hrun).
    apply bind_Ok in Hrun as ([self1 log1] & st3 & Hloop & [[= <- <-] <-]%ret_Ok).
    apply IH in Hloop as (children & -> & Hlen & -> & -> & Hbred);
      [|simpl; rewrite length_app; lia].
    simpl in *.
    set (child := {| chromosome := combiner i cs; fitness := None |}) in *.
    exists (child :: children). split_and!.
    + by rewrite <- app_assoc.
    + simpl. by rewrite Hlen.
    + unfold set_individuals. simpl. f_equal.
      rewrite <- app_assoc, length_app. simpl. by rewrite Nat.add_1_r.
    + by rewrite take_app_le.
    + intros [|k] j c Hj Hc; simpl in Hj, Hc.
      * injection Hj as <-. injection Hc as <-. simpl. rewrite app_nil_r.
        by exists cs.
      * rewrite take_app_le in Hbred by done. simpl.
        rewrite (cons_middle child), app_assoc. by eapply Hbred.
Qed.

(** With a picker that picks existing individuals the loop comes to its
    end. *)
Lemma breed_loop_total parent_picker combiner size_before iters self st :
  picks_live parent_picker →
  Forall (live st) (individuals self) →
  is_Ok (breed_loop parent_picker combiner size_before iters self st).
Proof.
  intros Hpick. revert self st.
  induction iters as [|i iters IH]; intros self st Hlive; simpl; [done|].
  assert (Forall (live st) (take size_before (individuals self))) as Hsnap.
  { by apply Forall_take. }
  destruct (read_chromosomes_live _ _ (Hpick i st _ Hsnap)) as [cs Hcs].
  rewrite (bind_run _ _ st _ st) by done.
  rewrite (bind_run _ _ _ _ _ Hcs).
  unfold Individual_init, alloc.
  rewrite (bind_run _ _ st _ _) by done.
  match goal with
  | |- is_Ok ((breed_loop _ _ _ _ ?s ≫= _) ?t) =>
      specialize (IH s t);
      destruct (breed_loop parent_picker combiner size_before iters s t)
        as [[r st']|e] eqn:Hloop
  end.
  - by rewrite (bind_run _ _ _ _ _ Hloop).
  - exfalso. apply IH. simpl. apply Forall_app. split.
    + eapply list.Forall_impl; [exact Hlive|]. unfold live. intros a Ha.
      rewrite length_app. lia.
    + repeat constructor. unfold live. rewrite length_app. simpl. lia.
Qed.

End Breed.

Section BreedLaws.

Context {C E : Type}.
Implicit Types st : Store C.
Implicit Types self : Population E.

(** C4: a population with fewer individuals than its intended size [N]
    is bred to exactly [N] individuals.  The first ones are the
    individuals it had, the same objects with the same contents; the
    others are new objects, each with the chromosome the combiner made
    of the chromosomes of its parents and with no fitness; and the
    picker was called once per child, every time with the individuals
    the population had before the breeding.  The picker is one that
    picks existing individuals. *)
Theorem breed_fills parent_picker combiner self st :
  Z.of_nat (length (individuals self)) < intended_size self →
  Forall (live st) (individuals self) →
  picks_live parent_picker →
  ∃ self' log children,
    Population_breed parent_picker combiner PyNone self st
      = Ok ((self', log), st ++ children) ∧
    Z.of_nat (length (individuals self')) = intended_size self ∧
    take (length (individuals self)) (individuals self') = individuals self ∧
    drop (length (individuals self)) (individuals self')
      = seq (length st) (length children) ∧
    (∀ a, a ∈ individuals self → (st ++ children) !! a = st !! a) ∧
    Forall (λ child, fitness child = None) children ∧
    (∀ k child, children !! k = Some child →
       bred_from parent_picker combiner (individuals self) k
                 (st ++ take k children) child) ∧
    log = replicate (length children) (individuals self).
Proof.
  intros Hfew Hlive Hpick.
  pose proof (breed_loop_total parent_picker combiner
                (length (individuals self))
                (seq 0 (Z.to_nat (intended_size self
                                  - Z.of_nat (length (individuals self)))))
                self st Hpick Hlive) as Hok.
  unfold Population_breed. simpl.
  destruct (breed_loop _ _ _ _ _ _) as [[[self' log] st']|e] eqn:Hloop;
    [clear Hok | done].
  apply breed_loop_Ok in Hloop as (children & -> & Hlen & -> & -> & Hbred);
    [|done].
  rewrite length_seq in Hlen. rewrite length_seq. rewrite firstn_all in *.
  exists (set_individuals
            (individuals self ++ seq (length st) (length children)) self),
         (replicate (length children) (individuals self)), children.
  rewrite Hlen. simpl. split_and!.
  - done.
  - rewrite length_app, length_seq. lia.
  - by rewrite take_app_length.
  - by rewrite drop_app_length.
  - intros a Ha. apply lookup_app_l.
    rewrite List.Forall_forall in Hlive. by apply Hlive, list_elem_of_In.
  - apply Forall_lookup_2. intros k child Hk.
    destruct (Hbred k k child) as (cs & _ & ->); [|done|done].
    apply lookup_seq. split; [done|]. apply lookup_lt_Some in Hk. lia.
  - intros k child Hk. apply Hbred; [|done].
    apply lookup_seq. split; [done|]. apply lookup_lt_Some in Hk. lia.
  - done.
Qed.

(** C10: a [population_size] that is not truthy, such as 0, does not
    replace [intended_size]: the breeding is the one without the
    argument, and when it returns the intended size is the one stored
    before and the population has been filled up to it. *)
Theorem breed_falsy_size parent_picker combiner population_size self st :
  truthy population_size = false →
  Population_breed parent_picker combiner population_size self st
    = Population_breed parent_picker combiner PyNone self st ∧
  ∀ self' log st',
    Population_breed parent_picker combiner population_size self st
      = Ok ((self', log), st') →
    intended_size self' = intended_size self ∧
    Z.of_nat (length (individuals self'))
      = Z.max (Z.of_nat (length (individuals self))) (intended_size self).
Proof.
  intros Hfalsy. unfold Population_breed. rewrite Hfalsy. simpl.
  split; [done|]. intros self' log st' Hloop.
  apply breed_loop_Ok in Hloop as (children & _ & _ & -> & _); [|done].
  simpl. split; [done|]. rewrite length_app, !length_seq. lia.
Qed.

End BreedLaws.

Lemma pick_two_live : picks_live pick_two.
Proof. intros i st snapshot Hlive. simpl. by apply Forall_take. Qed.

Lemma breed_fills_witness :
  ∃ self' log children,
    Population_breed pick_two add_up PyNone pop_short store1234
      = Ok ((self', log), store1234 ++ children) ∧
    Z.of_nat (length (individuals self')) = 4 ∧
    log = replicate (length children) [2; 3]%nat.
Proof.
  destruct (breed_fills pick_two add_up pop_short store1234)
    as (self' & log & children & Hrun & Hlen & _ & _ & _ & _ & _ & Hlog).
  - reflexivity.
  - unfold live. repeat constructor.
  - exact pick_two_live.
  - exists self', log, children. split_and!; done.
Defined.

Lemma breed_falsy_size_witness :
  ∃ self' log st',
    Population_breed pick_two add_up (PyInt 0) pop_short store1234
      = Ok ((self', log), st') ∧
    intended_size self' = 4 ∧ Z.of_nat (length (individuals self')) = 4.
Proof.
  eexists _, _, _. split; [vm_compute; reflexivity|].
  destruct (breed_falsy_size pick_two add_up (PyInt 0) pop_short store1234
              eq_refl) as [_ Hsize].
  exact (Hsize _ _ _ eq_refl).
Defined.

(** ** Rotations and matches *)

Section Rotations.

Context {A : Type}.
Implicit Types xs : list A.
Implicit Types ls : list (list A).

Lemma islice_cycle_length xs pos count :
  xs ≠ [] → length (islice_cycle xs pos count) = count.
Proof.
  intros Hne. revert pos. induction count as [|count IH]; intros pos; [done|].
  simpl. destruct (xs !! (pos mod length xs)%nat) as [x|] eqn:Hx.
  - simpl. by rewrite IH.
  - apply lookup_ge_None in Hx.
    pose proof (Nat.mod_upper_bound pos (length xs)).
    destruct xs; [done | simpl in *; lia].
Qed.

(** Element [i] of the rotation that starts at [pos] is the element of
    [xs] at [pos + i], counted round the list. *)
Lemma islice_cycle_lookup xs pos count i :
  (i < count)%nat →
  islice_cycle xs pos count !! i = xs !! ((pos + i) mod length xs)%nat.
Proof.
  destruct (decide (xs = [])) as [->|Hne].
  { intros _. destruct count; by rewrite ?lookup_nil. }
  revert pos i. induction count as [|count IH]; intros pos i Hi; [lia|].
  simpl. destruct (xs !! (pos mod length xs)%nat) as [x|] eqn:Hx.
  - destruct i as [|i]; simpl.
    + by rewrite Nat.add_0_r.
    + rewrite IH by lia. f_equal. f_equal. lia.
  - apply lookup_ge_None in Hx.
    pose proof (Nat.mod_upper_bound pos (length xs)).
    destruct xs; [done | simpl in *; lia].
Qed.

Lemma zip_star_cons l l' ls :
  zip_star (l :: l' :: ls) = zip_with cons l (zip_star (l' :: ls)).
Proof. done. Qed.

(** Zipping lists of one length [n] gives [n] tuples, and tuple [i]
    holds the elements at position [i], list by list. *)
Lemma zip_star_lookup ls n i :
  ls ≠ [] → Forall (λ l, length l = n) ls → (i < n)%nat →
  length (zip_star ls) = n ∧
  ∃ row, zip_star ls !! i = Some row ∧
         Forall2 (λ l x, l !! i = Some x) ls row.
Proof.
  intros Hne Hlen Hi. induction ls as [|l ls IH]; [done|].
  apply Forall_cons_1 in Hlen as [Hl Hls].
  destruct (lookup_lt_is_Some_2 l i) as [x Hx]; [lia|].
  destruct ls as [|l' ls].
  - simpl. split; [by rewrite length_map|].
    exists [x]. split; [by rewrite list_lookup_fmap, Hx | by repeat constructor].
  - destruct IH as (Hn & row & Hrow & Hall); [done | done |].
    rewrite zip_star_cons. split.
    + rewrite length_zip_with, Hn. lia.
    + exists (x :: row). split; [|by constructor].
      by rewrite lookup_zip_with, Hx, Hrow.
Qed.

End Rotations.

(** The matches of a round: as many as there are individuals, and match
    [i] has, for every offset, the individual [offset + i] places round
    the list. *)
Lemma contest_matches_lookup (l : list addr) (offsets : list Z) i :
  offsets ≠ [] → (i < length l)%nat →
  length (contest_matches l offsets) = length l ∧
  ∃ competitors,
    contest_matches l offsets !! i = Some competitors ∧
    Forall2 (λ offset a,
               l !! ((Z.to_nat offset + i) mod length l)%nat = Some a)
            offsets competitors.
Proof.
  intros Hoff Hi. unfold contest_matches.
  assert (l ≠ []) as Hne by (destruct l; [simpl in Hi; lia | done]).
  set (generators :=
         map (λ offset, islice_cycle l (Z.to_nat offset) (length l)) offsets).
  destruct (zip_star_lookup generators (length l) i) as (Hlen & row & Hrow & Hall).
  - unfold generators. by destruct offsets.
  - unfold generators. apply Forall_map, List.Forall_forall.
    intros offset _. simpl. by apply islice_cycle_length.
  - done.
  - rewrite firstn_all2 by lia. split; [done|].
    exists row. split; [done|].
    unfold generators in Hall. apply Forall2_fmap_l in Hall.
    eapply list.Forall2_impl; [exact Hall|].
    intros offset a Ha. simpl in Ha. by rewrite islice_cycle_lookup in Ha.
Qed.

(** ** Scores *)

Section Scoring.

Context {C : Type}.
Implicit Types st : Store C.
Implicit Types self : ContestPopulation C.

Lemma add_credit_add z1 z2 f :
  add_credit z2 (add_credit z1 f) = add_credit (z1 + z2) f.
Proof. destruct f; simpl; [f_equal; lia | done]. Qed.

(** Adding the scores of a sequence of pairs adds to every individual
    what the pairs hold for it. *)
Lemma add_all_Ok (pairs : list (addr * Z)) st u st' :
  for_each (λ p, add_fitness p.1 p.2) pairs st = Ok (u, st') →
  ∀ a, fitness_at st' a = add_credit (credited a pairs) (fitness_at st a).
Proof.
  revert st. induction pairs as [|[b s] pairs IH]; intros st Hrun a;
    simpl in Hrun.
  - apply ret_Ok in Hrun as [_ <-]. simpl.
    destruct (fitness_at st a); simpl; [f_equal; lia | done].
  - apply bind_Ok in Hrun as (u1 & st1 & Hadd & Hrun).
    rewrite (IH _ Hrun a). simpl in Hadd.
    apply add_fitness_Ok in Hadd as (ind & f & Hb & Hf & ->).
    rewrite (fitness_at_set _ _ _ _ _ Hb). simpl.
    destruct (decide (a = b)) as [->|Hne].
    + rewrite decide_True by done. unfold fitness_at. rewrite Hb, Hf. simpl.
      f_equal. lia.
    + rewrite decide_False by done.
      destruct (fitness_at st a); simpl; [f_equal; lia | done].
Qed.

Lemma add_all_total (pairs : list (addr * Z)) st :
  Forall (λ p, is_Some (fitness_at st p.1)) pairs →
  is_Ok (for_each (λ p, add_fitness p.1 p.2) pairs st).
Proof.
  revert st. induction pairs as [|[b s] pairs IH]; intros st Hall; [done|].
  apply Forall_cons_1 in Hall as [[f Hf] Hall]. simpl in Hf.
  unfold fitness_at in Hf. destruct (st !! b) as [ind|] eqn:Hb; [|done].
  assert (add_fitness b s st
          = Ok (tt, <[b := with_fitness (Some (f + s)) ind]> st)) as Hadd.
  { apply add_fitness_Ok. eauto. }
  simpl. rewrite (bind_run _ _ _ _ _ Hadd). apply IH.
  eapply list.Forall_impl; [exact Hall|]. intros p Hp.
  by apply (add_fitness_keeps _ _ _ _ _ Hadd).
Qed.

(** A match adds to every individual the scores of the places it has in
    the match. *)
Lemma play_match_Ok (eval : Contest C) competitors st u st' :
  play_match eval competitors st = Ok (u, st') →
  ∃ inds,
    Forall2 (λ a ind, st !! a = Some ind) competitors inds ∧
    ∀ a, fitness_at st' a
         = add_credit (credited a (zip competitors (eval inds)))
                      (fitness_at st a).
Proof.
  unfold play_match.
  intros (inds & st1 & [-> Hinds]%collect_load & Hrun)%bind_Ok.
  exists inds. split; [done|]. by eapply add_all_Ok.
Qed.

Lemma play_match_total (eval : Contest C) competitors st :
  evaluated st competitors → is_Ok (play_match eval competitors st).
Proof.
  intros Hev. unfold play_match.
  destruct (collect_load_live competitors st) as [inds Hinds].
  { eapply list.Forall_impl; [exact Hev|]. apply fitness_at_live. }
  rewrite (bind_run _ _ _ _ _ Hinds). apply add_all_total.
  apply List.Forall_forall. intros [a s] Hin%list_elem_of_In. simpl.
  apply elem_of_zip_l in Hin. unfold evaluated in Hev.
  rewrite List.Forall_forall in Hev. by apply Hev, list_elem_of_In.
Qed.

Lemma collect_lift {A B} (r : A → result B) (g : A → B) js st :
  (∀ j, r j = Ok (g j)) →
  collect (λ j, lift (r j)) js st = Ok (map g js, st).
Proof.
  intros Hr. induction js as [|j js IH]; [done|]. simpl.
  rewrite (bind_run _ _ st (g j) st) by (unfold lift; by rewrite Hr).
  by rewrite (bind_run _ _ _ _ _ IH).
Qed.

(** On a population that is not empty the draw of the offsets does not
    fail: it gives 0 and then [individuals_per_match - 1] offsets below
    the number of individuals. *)
Lemma draw_offsets_Ok rnd self :
  individuals (base self) ≠ [] →
  ∃ drawn,
    (∀ st, draw_offsets rnd self st = Ok (0 :: drawn, st)) ∧
    length drawn = Z.to_nat (individuals_per_match self - 1) ∧
    Forall (λ offset, 0 ≤ offset < Z.of_nat (length (individuals (base self))))
           drawn.
Proof.
  intros Hne. unfold draw_offsets.
  set (len := Z.of_nat (length (individuals (base self)))).
  assert (0 < len) as Hlen.
  { unfold len. destruct (individuals (base self)); [done | simpl; lia]. }
  exists (map (λ j, Z.of_nat (rnd j) `mod` len)
              (seq 0 (Z.to_nat (individuals_per_match self - 1)))).
  split_and!.
  - intros st. erewrite bind_run; [done|]. apply collect_lift.
    intros j. unfold randint. fold len.
    rewrite (proj2 (Z.ltb_ge (len - 1) 0)) by lia.
    f_equal. rewrite Z.add_0_l. f_equal. lia.
  - by rewrite length_map, length_seq.
  - apply Forall_map, List.Forall_forall. intros j _. simpl.
    by apply Z.mod_pos_bound.
Qed.

End Scoring.

Lemma contest_matches_anchor (l : list addr) (drawn : list Z) :
  Forall2 (λ m x, head m = Some x) (contest_matches l (0 :: drawn)) l.
Proof.
  destruct (decide (l = [])) as [->|Hne]; [constructor|].
  assert (length (contest_matches l (0 :: drawn)) = length l) as Hlen.
  { destruct l as [|x l]; [done|].
    apply (contest_matches_lookup (x :: l) (0 :: drawn) 0); [done | simpl; lia]. }
  apply Forall2_same_length_lookup_2; [done|].
  intros i m x Hm Hx.
  destruct (contest_matches_lookup l (0 :: drawn) i)
    as (_ & competitors & Hc & Hall); [done | by eapply lookup_lt_Some |].
  rewrite Hm in Hc. injection Hc as <-.
  inversion Hall as [|? a ? ? Ha _]; subst. simpl in *.
  rewrite Nat.mod_small in Ha by by eapply lookup_lt_Some. congruence.
Qed.

Lemma contest_matches_within (l : list addr) (offsets : list Z) :
  offsets ≠ [] →
  Forall (λ m, Forall (λ a, a ∈ l) m) (contest_matches l offsets).
Proof.
  intros Hoff. apply Forall_lookup_2. intros i m Hm.
  assert (i < length l)%nat as Hi.
  { apply lookup_lt_Some in Hm. unfold contest_matches in Hm.
    rewrite length_take in Hm. lia. }
  destruct (contest_matches_lookup l offsets i Hoff Hi)
    as (_ & competitors & Hc & Hall).
  rewrite Hm in Hc. injection Hc as <-.
  clear -Hall. induction Hall as [|o a os m Ha _ IH]; constructor; [|done].
  by eapply list_elem_of_lookup_2.
Qed.

Lemma anchored_occurrences (a : addr) (l : list addr) (drawn : list Z) :
  anchored a (contest_matches l (0 :: drawn)) = length (filter (λ x, x = a) l).
Proof.
  unfold anchored.
  induction (contest_matches_anchor l drawn) as [|m x ms xs Hm _ IH]; [done|].
  rewrite !filter_cons, Hm.
  destruct (decide (x = a)) as [->|Hne].
  - rewrite decide_True by done. simpl. by rewrite IH.
  - rewrite decide_False by congruence. done.
Qed.

Section Round.

Context {C : Type}.
Implicit Types st : Store C.
Implicit Types self : ContestPopulation C.


End Round.


(** ** The fitness a contest gives *)

Lemma credited_first (a : addr) (m : list addr) :
  credited a (zip m [1; 0]) = if decide (head m = Some a) then 1 else 0.
Proof.
  destruct m as [|x [|y m]]; [done | |]; [|destruct m]; simpl;
    repeat case_decide; try lia; congruence.
Qed.

Lemma anchored_le_participations (a : addr) (matches : list (list addr)) :
  (anchored a matches ≤ participations a matches)%nat.
Proof.
  unfold anchored, participations.
  induction matches as [|m matches IH]; [done|].
  rewrite !filter_cons. destruct (decide (head m = Some a)) as [Hm|Hm].
  - rewrite decide_True; [simpl; lia|].
    destruct m as [|x m]; [done|]. injection Hm as ->. left.
  - case_decide; simpl; lia.
Qed.

Lemma occurrences_pos (a : addr) (l : list addr) :
  a ∈ l → (1 ≤ length (filter (λ x, x = a) l))%nat.
Proof.
  induction 1 as [x l|x y l _ IH]; rewrite filter_cons.
  - rewrite decide_True by done. simpl. lia.
  - case_decide; simpl; lia.
Qed.

Lemma occurrences_absent (a : addr) (l : list addr) :
  a ∉ l → filter (λ x, x = a) l = [].
Proof.
  induction l as [|x l IH]; [done|].
  intros [Hne Hl]%not_elem_of_cons. rewrite filter_cons.
  rewrite decide_False by congruence. by apply IH.
Qed.

Lemma occurrences_NoDup (a : addr) (l : list addr) :
  NoDup l → a ∈ l → length (filter (λ x, x = a) l) = 1%nat.
Proof.
  induction 1 as [|x l Hx Hl IH]; intros Ha; [by apply elem_of_nil in Ha|].
  rewrite filter_cons. destruct (decide (x = a)) as [->|Hne].
  - simpl. by rewrite occurrences_absent.
  - apply IH. apply elem_of_cons in Ha as [->|Ha]; done.
Qed.

Section Accounting.

Context {C : Type}.
Implicit Types st : Store C.
Implicit Types self : ContestPopulation C.

(** Setting the fitness of the individuals of [l] to 0 touches no other
    fitness. *)
Lemma zero_all_value (l : list addr) st u st0 :
  for_each (λ a, set_fitness a (Some 0)) l st = Ok (u, st0) →
  ∀ a, fitness_at st0 a = if decide (a ∈ l) then Some 0 else fitness_at st a.
Proof.
  revert st. induction l as [|b l IH]; intros st Hrun a; simpl in Hrun.
  - apply ret_Ok in Hrun as [_ <-]. rewrite decide_False; [done|].
    apply not_elem_of_nil.
  - apply bind_Ok in Hrun as (u1 & st1 & (ind & Hb & ->)%set_fitness_Ok & Hrun).
    rewrite (IH _ Hrun a), (fitness_at_set _ _ _ _ _ Hb).
    destruct (decide (a ∈ l)) as [Hl|Hl].
    + rewrite decide_True; [done | by right].
    + destruct (decide (a = b)) as [->|Hne].
      * rewrite decide_True; [done | left].
      * rewrite decide_False; [done|]. by intros [?|?]%elem_of_cons.
Qed.

Lemma zero_all_total (l : list addr) st :
  Forall (live st) l → is_Ok (for_each (λ a, set_fitness a (Some 0)) l st).
Proof.
  revert st. induction l as [|b l IH]; intros st Hlive; [done|].
  apply Forall_cons_1 in Hlive as [Hb Hl].
  destruct (lookup_lt_is_Some_2 st b Hb) as [ind Hind].
  assert (set_fitness b (Some 0) st
          = Ok (tt, <[b := with_fitness (Some 0) ind]> st)) as Hset.
  { apply set_fitness_Ok. eauto. }
  simpl. rewrite (bind_run _ _ _ _ _ Hset). apply IH.
  eapply list.Forall_impl; [exact Hl|]. unfold live. intros a Ha.
  by rewrite length_insert.
Qed.

(** With an objective that gives 1 to the first competitor and 0 to the
    second, a sequence of matches gives every individual as many points
    as it has matches in which it is first. *)
Lemma play_matches_first (eval : Contest C) matches st u st' :
  (∀ inds, eval inds = [1; 0]) →
  for_each (play_match eval) matches st = Ok (u, st') →
  ∀ a, fitness_at st' a
       = add_credit (Z.of_nat (anchored a matches)) (fitness_at st a).
Proof.
  intros Heval. revert st.
  induction matches as [|m matches IH]; intros st Hrun a; simpl in Hrun.
  - apply ret_Ok in Hrun as [_ <-]. unfold anchored. simpl.
    destruct (fitness_at st a); simpl; [f_equal; lia | done].
  - apply bind_Ok in Hrun as (u1 & st1 & Hm & Hrun).
    apply play_match_Ok in Hm as (inds & _ & Hm).
    rewrite (IH _ Hrun a), Hm, Heval, credited_first, add_credit_add.
    f_equal. unfold anchored. rewrite filter_cons.
    case_decide; simpl length; lia.
Qed.

Lemma play_matches_total (eval : Contest C) (l : list addr) matches st :
  evaluated st l →
  Forall (λ m, Forall (λ a, a ∈ l) m) matches →
  is_Ok (for_each (play_match eval) matches st).
Proof.
  intros Hev Hin. revert st Hev.
  induction Hin as [|m matches Hm _ IH]; intros st Hev; [done|].
  assert (evaluated st m) as Hevm.
  { unfold evaluated in *. rewrite List.Forall_forall in Hev.
    eapply list.Forall_impl; [exact Hm|].
    intros a Ha. by apply Hev, list_elem_of_In. }
  pose proof (play_match_total eval m st Hevm) as Hok.
  destruct (play_match eval m st) as [[[] st1]|e] eqn:Hplay; [|done].
  simpl. rewrite (bind_run _ _ _ _ _ Hplay). apply IH.
  apply play_match_keeps in Hplay as [_ Hkeep].
  eapply list.Forall_impl; [exact Hev|]. auto.
Qed.

(** C1, as the code has it: with two individuals per match, one round,
    and an objective that returns (1, 0) for every match, the
    evaluation of a population that is not empty gives every individual
    as fitness the number of matches in which it was the first
    competitor, whatever the offsets drawn.  That number is the number
    of places the individual has in the sequence: at least 1, exactly 1
    when no individual is there twice, and never more than the number
    of matches it took part in. *)
Theorem contest_accounting self rnd st :
  individuals_per_match self = 2 →
  matches_per_round self = 1 →
  (∀ inds, eval_function (base self) inds = [1; 0]) →
  individuals (base self) ≠ [] →
  Forall (live st) (individuals (base self)) →
  let l := individuals (base self) in
  ∃ st' drawn,
    ContestPopulation_evaluate rnd false self st = Ok (tt, st') ∧
    draw_offsets (rnd 0%nat) self st = Ok (0 :: drawn, st) ∧
    let matches := contest_matches l (0 :: drawn) in
    ∀ a, a ∈ l →
      fitness_at st' a = Some (Z.of_nat (anchored a matches)) ∧
      anchored a matches = length (filter (λ x, x = a) l) ∧
      (1 ≤ anchored a matches ≤ participations a matches)%nat ∧
      (NoDup l → fitness_at st' a = Some 1).
Proof.
  intros Hipm Hmpr Heval Hne Hlive l.
  destruct (draw_offsets_Ok (rnd 0%nat) self Hne) as (drawn & Hdraw & _ & _).
  set (matches := contest_matches l (0 :: drawn)).
  pose proof (zero_all_total l st Hlive) as Hzero.
  destruct (for_each _ l st) as [[[] st0]|e] eqn:Hst0; [clear Hzero | done].
  pose proof (zero_all_value _ _ _ _ Hst0) as Hval.
  assert (evaluated st0 l) as Hev.
  { apply List.Forall_forall. intros a Ha%list_elem_of_In.
    rewrite Hval, decide_True by done. by eexists. }
  pose proof (play_matches_total (eval_function (base self)) l matches st0 Hev)
    as Hplay.
  destruct (for_each (play_match _) matches st0) as [[[] st']|e] eqn:Hst';
    [clear Hplay | exfalso; apply Hplay; by apply contest_matches_within].
  exists st', drawn. split_and!.
  - unfold ContestPopulation_evaluate, lazy_and.
    rewrite (bind_run _ _ st false st) by done.
    fold l. rewrite (bind_run _ _ _ _ _ Hst0).
    rewrite Hmpr. simpl.
    assert (play_round (rnd 0%nat) self st0 = Ok (tt, st')) as Hround.
    { unfold play_round. by rewrite (bind_run _ _ _ _ _ (Hdraw st0)). }
    by rewrite (bind_run _ _ _ _ _ Hround).
  - apply Hdraw.
  - intros matches' a Ha. subst matches'. fold matches.
    assert (fitness_at st' a = Some (Z.of_nat (anchored a matches))) as Hfit.
    { rewrite (play_matches_first _ _ _ _ _ Heval Hst' a), Hval.
      by rewrite decide_True by done. }
    pose proof (anchored_occurrences a l drawn) as Hocc. fold matches in Hocc.
    split_and!.
    + done.
    + done.
    + rewrite Hocc. by apply occurrences_pos.
    + apply anchored_le_participations.
    + intros Hnodup. rewrite Hfit, Hocc, occurrences_NoDup by done. done.
Qed.

End Accounting.

Lemma contest_accounting_witness :
  ∃ st',
    ContestPopulation_evaluate (λ _ _, 1%nat) false contest3 store3
      = Ok (tt, st') ∧
    fitness_at st' 0%nat = Some 1 ∧
    fitness_at st' 1%nat = Some 1 ∧
    fitness_at st' 2%nat = Some 1.
Proof.
  destruct (contest_accounting contest3 (λ _ _, 1%nat) store3)
    as (st' & drawn & Hrun & _ & Hfit).
  - reflexivity.
  - reflexivity.
  - done.
  - done.
  - unfold live. repeat constructor.
  - assert (NoDup (individuals (base contest3))) as Hnodup.
    { apply (bool_decide_unpack _). by vm_compute. }
    exists st'. split_and!; [done | apply Hfit | apply Hfit | apply Hfit];
      (done || (simpl; repeat constructor)).
Defined.

(** C1 as claimed fails when the offset drawn is not 0: of three
    individuals, with the offset 1, individual 0 is in the matches
    (0, 1) and (2, 0) and has the fitness 1. *)
Lemma contest_accounting_counterexample :
  ∃ st',
    ContestPopulation_evaluate (λ _ _, 1%nat) false contest3 store3
      = Ok (tt, st') ∧
    draw_offsets (λ _, 1%nat) contest3 store3 = Ok ([0; 1], store3) ∧
    contest_matches (individuals (base contest3)) [0; 1]
      = [[0; 1]; [1; 2]; [2; 0]]%nat ∧
    participations 0 (contest_matches (individuals (base contest3)) [0; 1])
      = 2%nat ∧
    fitness_at st' 0%nat = Some 1 ∧
    fitness_at st' 0%nat
      ≠ Some (Z.of_nat
                (participations 0
                   (contest_matches (individuals (base contest3)) [0; 1]))).
Proof.
  eexists. split; [vm_compute; reflexivity|].
  split_and!; try reflexivity. vm_compute. discriminate.
Qed.

(** ** Evolution on a copy *)

Section Evolve.

Context {C E : Type}.
Implicit Types st : Store C.
Implicit Types self : Population E.

#[export] Instance unchanged_in_refl : Reflexive (@unchanged_in C).
Proof. by intros st a ind. Qed.

#[export] Instance unchanged_in_trans : Transitive (@unchanged_in C).
Proof. intros st1 st2 st3 H12 H23 a ind Ha. by apply H23, H12. Qed.

Lemma unchanged_in_length st st' :
  unchanged_in st st' → (length st ≤ length st')%nat.
Proof.
  intros Hun. destruct (decide (length st ≤ length st')%nat) as [|Hgt]; [done|].
  destruct (lookup_lt_is_Some_2 st (length st')) as [ind Hind]; [lia|].
  apply Hun, lookup_lt_Some in Hind. lia.
Qed.

Lemma unchanged_in_snoc st ind : unchanged_in st (st ++ [ind]).
Proof. intros a x Ha. by apply lookup_app_l_Some. Qed.

Lemma copy_of_mono st0 st st' a b :
  copy_of st0 st a b → unchanged_in st st' → copy_of st0 st' a b.
Proof. intros (Hb & ind & Ha & Hcopy) Hun. split; [done|]. eauto. Qed.

(** Copying live individuals does not fail; it only adds objects, one
    copy for every individual. *)
Lemma deepcopy_refs_spec st0 l memo st :
  unchanged_in st0 st →
  Forall (live st0) l →
  Forall (λ p, copy_of st0 st p.1 p.2) memo →
  ∃ bs st',
    deepcopy_refs memo l st = Ok (bs, st') ∧
    unchanged_in st st' ∧
    Forall2 (copy_of st0 st') l bs.
Proof.
  intros Hun Hlive. revert memo st Hun.
  induction Hlive as [|a l Ha _ IH]; intros memo st Hun Hmemo.
  { exists [], st. by split_and!. }
  simpl. destruct (list_find (λ p, p.1 = a) memo) as [[i [a' b]]|] eqn:Hfind.
  - apply list_find_Some in Hfind as (Hi & Heq & _). simpl in Heq. subst a'.
    rewrite List.Forall_forall in Hmemo.
    pose proof (Hmemo (a, b)) as Hab. simpl in Hab.
    destruct (IH memo st Hun) as (bs & st' & Hrun & Hun' & Hall).
    { by apply List.Forall_forall. }
    exists (b :: bs), st'. rewrite (bind_run _ _ _ _ _ Hrun).
    split_and!; [done | done |]. constructor; [|done].
    eapply copy_of_mono; [|exact Hun'].
    apply Hab, list_elem_of_In. by eapply list_elem_of_lookup_2.
  - destruct (lookup_lt_is_Some_2 st0 a Ha) as [ind Hind].
    pose proof (unchanged_in_length _ _ Hun) as Hlen.
    assert (copy_of st0 (st ++ [ind]) a (length st)) as Hcopy.
    { split; [done|]. exists ind. split; [done|].
      by rewrite lookup_app_r, Nat.sub_diag. }
    destruct (IH ((a, length st) :: memo) (st ++ [ind]))
      as (bs & st' & Hrun & Hun' & Hall).
    { transitivity st; [done | apply unchanged_in_snoc]. }
    { constructor; [done|]. eapply list.Forall_impl; [exact Hmemo|].
      intros p Hp. eapply copy_of_mono; [exact Hp | apply unchanged_in_snoc]. }
    exists (length st :: bs), st'.
    rewrite (bind_run _ _ st ind st) by (apply load_Ok; auto).
    unfold alloc. rewrite (bind_run _ _ st (length st) (st ++ [ind])) by done.
    rewrite (bind_run _ _ _ _ _ Hrun). split_and!; [done | |].
    + transitivity (st ++ [ind]); [apply unchanged_in_snoc | done].
    + constructor; [|done]. by eapply copy_of_mono.
Qed.

Lemma deepcopy_spec self st :
  Forall (live st) (individuals self) →
  ∃ copies st',
    deepcopy self st = Ok (set_individuals copies self, st') ∧
    unchanged_in st st' ∧
    Forall2 (copy_of st st') (individuals self) copies.
Proof.
  intros Hlive.
  destruct (deepcopy_refs_spec st (individuals self) [] st)
    as (bs & st' & Hrun & Hun & Hall); [done | done | constructor |].
  exists bs, st'. unfold deepcopy. by rewrite (bind_run _ _ _ _ _ Hrun).
Qed.

Lemma apply_steps_app (e1 e2 : list (Step E)) (p : Population E) st :
  apply_steps (e1 ++ e2) p st = (apply_steps e1 p ≫= apply_steps e2) st.
Proof.
  revert p st. induction e1 as [|step e1 IH]; intros p st; [done|].
  simpl. rewrite bind_assoc.
  destruct (step p st) as [[p1 st1]|e] eqn:Hstep.
  - rewrite !(bind_run _ _ _ _ _ Hstep). apply IH.
  - by rewrite !(bind_Err _ _ _ _ Hstep).
Qed.

(** The batches are the steps of the evolution, all of them in order,
    [n] times over. *)
Lemma evolve_batches_flat n (evolution : list (Step E))
    (p : Population E) st :
  evolve_batches n evolution p st
  = apply_steps (concat (replicate n evolution)) p st.
Proof.
  revert p st. induction n as [|n IH]; intros p st; [done|].
  simpl. rewrite apply_steps_app.
  destruct (apply_steps evolution p st) as [[p1 st1]|e] eqn:Hsteps.
  - rewrite !(bind_run _ _ _ _ _ Hsteps). apply IH.
  - by rewrite !(bind_Err _ _ _ _ Hsteps).
Qed.

(** Local steps on a population of objects that were not in [st0] leave
    [st0] as it was, and leave a population of such objects. *)
Lemma apply_steps_local (evolution : list (Step E)) st0
    (p p' : Population E) st st' :
  Forall local_step evolution →
  apply_steps evolution p st = Ok (p', st') →
  unchanged_in st0 st →
  Forall (λ a, length st0 ≤ a)%nat (individuals p) →
  unchanged_in st0 st' ∧ Forall (λ a, length st0 ≤ a)%nat (individuals p').
Proof.
  intros Hlocal. revert p st.
  induction Hlocal as [|step evolution Hstep _ IH]; intros p st Hrun Hun Hnew;
    simpl in Hrun.
  - by apply ret_Ok in Hrun as [<- <-].
  - apply bind_Ok in Hrun as (p1 & st1 & H1 & Hrun).
    destruct (Hstep _ _ _ _ H1) as [Hframe Hinds].
    rewrite List.Forall_forall in Hnew.
    apply (IH _ _ Hrun).
    + intros a ind Ha. apply Hframe; [|by apply Hun].
      intros Hin%list_elem_of_In%Hnew. apply lookup_lt_Some in Ha. lia.
    + apply List.Forall_forall. intros a Ha%list_elem_of_In.
      destruct (Hinds a Ha) as [Hold%list_elem_of_In|Hfresh]; [by apply Hnew|].
      apply unchanged_in_length in Hun. lia.
Qed.

End Evolve.

Section EvolveLaws.

Context {C : Type}.
Implicit Types st : Store C.

Lemma evaluate_each_frame (ev : C → Z) lazy (l : list addr) st u st' :
  for_each (Individual_evaluate ev lazy) l st = Ok (u, st') →
  ∀ a ind, a ∉ l → st !! a = Some ind → st' !! a = Some ind.
Proof.
  revert st. induction l as [|b l IH]; intros st Hrun a ind Ha Hind;
    simpl in Hrun.
  - by apply ret_Ok in Hrun as [_ <-].
  - apply bind_Ok in Hrun as (u1 & st1 & H1 & Hrun).
    apply not_elem_of_cons in Ha as [Hne Ha].
    apply (IH _ Hrun a ind Ha).
    apply Individual_evaluate_Ok in H1 as (indb & _ & ->).
    destruct (lazy && _); [done|]. by rewrite list_lookup_insert_ne.
Qed.

(** The steps made of the methods of this module are local: an
    evaluation, ... *)
Lemma evaluate_step_local lazy :
  local_step (λ p : Population (C → Z), Population_evaluate lazy p ;; mret p).
Proof.
  intros p st p' st' (u & st1 & Heval & [<- <-]%ret_Ok)%bind_Ok. split.
  - intros a ind. by eapply evaluate_each_frame.
  - auto.
Qed.

(** ... and a survival. *)
Lemma survive_step_local rnd fraction n luck :
  local_step (Population_survive (E := C → Z) Population_evaluate
                                 rnd fraction n luck).
Proof.
  intros p st p' st' (size & u & _ & Heval & _ & _ & Hsel)%Population_survive_Ok.
  split.
  - intros a ind. by eapply evaluate_each_frame.
  - intros a Ha. left. destruct luck.
    + destruct Hsel as (weights & inds & _ & [_ Hin]%choices_length & ->).
      by apply Hin.
    + destruct Hsel as (kl & (_ & Hkl & _)%keyed_Ok & ->). simpl in Ha.
      destruct (py_slice_to_prefix (map snd (sorted (maximize p) kl)) size)
        as (m & Hm & _).
      rewrite Hm in Ha. apply subseteq_take in Ha.
      by rewrite sorted_perm, Hkl in Ha.
Qed.

(** C7: [evolve] works on a deep copy.  The copy is made of new
    objects, one for every individual, with the chromosome and the
    fitness of the individual; the steps of the evolution are applied
    to the copy, all of them in order, [n] times over; and when the
    steps are local, as the methods of a population are, every object
    that was there before the call, every individual of the original
    among them, is after the call as it was, and the population that is
    returned holds none of them. *)
Theorem evolve_pure {E} (evolution : list (Step E)) n (self : Population E) st :
  Forall local_step evolution →
  Forall (live st) (individuals self) →
  ∃ copies st0,
    deepcopy self st = Ok (set_individuals copies self, st0) ∧
    unchanged_in st st0 ∧
    Forall2 (copy_of st st0) (individuals self) copies ∧
    Population_evolve evolution n self st
      = apply_steps (concat (replicate (Z.to_nat n) evolution))
                    (set_individuals copies self) st0 ∧
    ∀ result st',
      Population_evolve evolution n self st = Ok (result, st') →
      unchanged_in st st' ∧
      Forall (λ a, st' !! a = st !! a) (individuals self) ∧
      Forall (λ a, length st ≤ a)%nat (individuals result).
Proof.
  intros Hlocal Hlive.
  destruct (deepcopy_spec self st Hlive) as (copies & st0 & Hcopy & Hun & Hall).
  exists copies, st0.
  assert (Population_evolve evolution n self st
          = apply_steps (concat (replicate (Z.to_nat n) evolution))
                        (set_individuals copies self) st0) as Hflat.
  { unfold Population_evolve. rewrite (bind_run _ _ _ _ _ Hcopy).
    apply evolve_batches_flat. }
  split_and!; [done | done | done | done |].
  intros result st' Hrun. rewrite Hflat in Hrun.
  assert (Forall local_step (concat (replicate (Z.to_nat n) evolution)))
    as Hlocal'.
  { clear -Hlocal. induction (Z.to_nat n) as [|k IH]; simpl; [constructor|].
    apply Forall_app. by split. }
  destruct (apply_steps_local _ st _ _ _ _ Hlocal' Hrun Hun) as [Hun' Hnew].
  { simpl. clear -Hall. induction Hall as [|a b l bs [Hb _] _ IH];
      by constructor. }
  split_and!; [done | | done].
  eapply list.Forall_impl; [exact Hlive|]. intros a Ha.
  destruct (lookup_lt_is_Some_2 st a Ha) as [ind Hind].
  by rewrite Hind, (Hun' _ _ Hind).
Qed.

End EvolveLaws.

Lemma evolve_pure_witness :
  ∃ result st',
    Population_evolve [step_evaluate; step_survive] 2 pop1234 store1234
      = Ok (result, st') ∧
    individuals result = [7; 6]%nat ∧
    unchanged_in store1234 st' ∧
    Forall (λ a, st' !! a = store1234 !! a) (individuals pop1234).
Proof.
  eexists _, _. split; [vm_compute; reflexivity|]. split; [reflexivity|].
  destruct (evolve_pure [step_evaluate; step_survive] 2 pop1234 store1234)
    as (copies & st0 & _ & _ & _ & _ & Hpure).
  - constructor; [exact (evaluate_step_local false)|].
    constructor; [apply survive_step_local | constructor].
  - unfold live. repeat constructor.
  - destruct (Hpure _ _ eq_refl) as (Hun & Hsame & _). by split.
Defined.

(** * Further properties of the module *)

(** ** Construction *)

Section Construction.

Context {C E : Type}.
Implicit Types st : Store C.

Lemma collect_init (chromosomes : list C) st :
  collect Individual_init chromosomes st
  = Ok (seq (length st) (length chromosomes),
        st ++ map (λ c, {| chromosome := c; fitness := None |}) chromosomes).
Proof.
  revert st. induction chromosomes as [|c cs IH]; intros st; simpl.
  - by rewrite app_nil_r.
  - unfold Individual_init at 1, alloc.
    rewrite (bind_run _ _ st (length st) (st ++ [mkIndividual c None])) by done.
    rewrite (bind_run _ _ _ _ _ (IH _)).
    rewrite length_app, Nat.add_1_r, <- app_assoc. done.
Qed.

(** X1: the constructor adds one new object per chromosome to the
    store, in the order of the chromosomes and each without a fitness,
    and changes no object that was there; the individuals of the new
    population are these objects, all different, [intended_size] is the
    number of chromosomes and [generation] is 0.  It never fails. *)
Theorem Population_init_fresh (chromosomes : list C) (ev : E) mx st :
  ∃ self,
    Population_init chromosomes ev mx st
      = Ok (self,
            st ++ map (λ c, {| chromosome := c; fitness := None |})
                      chromosomes) ∧
    individuals self = seq (length st) (length chromosomes) ∧
    NoDup (individuals self) ∧
    Forall (λ a, length st ≤ a)%nat (individuals self) ∧
    intended_size self = Z.of_nat (length chromosomes) ∧
    generation self = 0 ∧ maximize self = mx ∧ eval_function self = ev.
Proof.
  eexists. unfold Population_init.
  rewrite (bind_run _ _ _ _ _ (collect_init chromosomes st)).
  split; [done|]. simpl. split_and!; try done.
  - apply NoDup_ListNoDup, seq_NoDup.
  - apply List.Forall_forall. intros a [Ha _]%in_seq. done.
Qed.

(** X2: [generate] makes a population of [size] individuals (of none
    when [size] is negative) whose chromosomes are the results of the
    calls of [init_func], in the order of the calls; [intended_size] is
    that number and [maximize] is always set. *)
Theorem Population_generate_shape (init_func : nat → C) (ev : E) size st :
  ∃ self st',
    Population_generate init_func ev size st = Ok (self, st') ∧
    length (individuals self) = Z.to_nat size ∧
    intended_size self = Z.max 0 size ∧
    maximize self = true ∧
    map (chromosome_at st') (individuals self)
      = map (λ i, Some (init_func i)) (seq 0 (Z.to_nat size)) ∧
    Forall (unevaluated st') (individuals self).
Proof.
  unfold Population_generate.
  destruct (Population_init_fresh (map init_func (seq 0 (Z.to_nat size)))
              ev true st)
    as (self & Hrun & Hinds & _ & _ & Hsize & _ & Hmax & _).
  exists self. eexists. split; [exact Hrun|].
  rewrite length_map, length_seq in Hinds, Hsize.
  assert (∀ i, (i < Z.to_nat size)%nat →
            (st ++ map (λ c, {| chromosome := c; fitness := None |})
                       (map init_func (seq 0 (Z.to_nat size))))
              !! (length st + i)%nat
            = Some {| chromosome := init_func i; fitness := None |}) as Hcell.
  { intros i Hi. rewrite lookup_app_r by lia.
    replace (length st + i - length st)%nat with i by lia.
    rewrite !list_lookup_fmap, lookup_seq_lt by done. done. }
  rewrite Hinds. split_and!.
  - by rewrite length_seq.
  - lia.
  - done.
  - apply list_eq. intros i. rewrite !list_lookup_fmap.
    destruct (decide (i < Z.to_nat size)%nat) as [Hi|Hi].
    + rewrite !lookup_seq_lt by done. simpl. unfold chromosome_at.
      by rewrite Hcell.
    + by rewrite !lookup_seq_ge by lia.
  - apply List.Forall_forall. intros a [Ha1 Ha2]%in_seq.
    replace a with (length st + (a - length st))%nat by lia.
    eexists. split; [apply Hcell; lia | done].
Qed.

End Construction.

(** ** What an evaluation leaves *)

Section EvaluateValue.

Context {C : Type}.
Implicit Types st : Store C.
Implicit Types self : Population (C → Z).

Lemma Individual_evaluate_value (ev : C → Z) lazy b st u st1 :
  Individual_evaluate ev lazy b st = Ok (u, st1) →
  (∀ a, chromosome_at st1 a = chromosome_at st a) ∧
  fitness_at st1 b = fitness_after_evaluate ev lazy st b ∧
  is_Some (fitness_at st1 b) ∧
  (∀ a, a ≠ b → st1 !! a = st !! a).
Proof.
  intros (ind & Hb & ->)%Individual_evaluate_Ok.
  unfold fitness_after_evaluate. rewrite Hb.
  destruct (lazy && _) eqn:Hskip.
  - apply andb_true_iff in Hskip as [_ Hf%bool_decide_eq_true].
    unfold fitness_at. rewrite Hb. by split_and!.
  - split_and!.
    + intros a. by apply chromosome_at_set.
    + rewrite (fitness_at_set _ _ _ _ _ Hb). by rewrite decide_True.
    + rewrite (fitness_at_set _ _ _ _ _ Hb). by rewrite decide_True.
    + intros a Hne. by rewrite list_lookup_insert_ne.
Qed.

Lemma fitness_after_evaluate_ext (ev : C → Z) lazy st st1 a :
  st1 !! a = st !! a →
  fitness_after_evaluate ev lazy st1 a = fitness_after_evaluate ev lazy st a.
Proof. unfold fitness_after_evaluate. by intros ->. Qed.

Lemma fitness_after_evaluate_again (ev : C → Z) lazy st st1 a :
  chromosome_at st1 a = chromosome_at st a →
  fitness_at st1 a = fitness_after_evaluate ev lazy st a →
  is_Some (fitness_at st1 a) →
  fitness_after_evaluate ev lazy st1 a = fitness_after_evaluate ev lazy st a.
Proof.
  unfold fitness_after_evaluate, chromosome_at, fitness_at.
  destruct (st1 !! a) as [ind1|]; [|by intros _ _ [? ?]].
  destruct (st !! a) as [ind|]; [|done].
  intros [= Hc] Hf Hsome. destruct lazy; simpl in *.
  - rewrite bool_decide_eq_true_2 by done. done.
  - by rewrite Hc.
Qed.

Lemma evaluate_each_value (ev : C → Z) lazy (l : list addr) st u st' :
  for_each (Individual_evaluate ev lazy) l st = Ok (u, st') →
  ∀ a, chromosome_at st' a = chromosome_at st a ∧
       (a ∈ l → fitness_at st' a = fitness_after_evaluate ev lazy st a) ∧
       (a ∉ l → st' !! a = st !! a).
Proof.
  revert st. induction l as [|b l IH]; intros st Hrun a; simpl in Hrun.
  - apply ret_Ok in Hrun as [_ <-]. split_and!; [done | | done].
    by intros ?%elem_of_nil.
  - apply bind_Ok in Hrun as (u1 & st1 & H1 & Hrun).
    apply Individual_evaluate_value in H1 as (Hc1 & Hb1 & Hsome1 & Hne1).
    destruct (IH _ Hrun a) as (Hc & Hin & Hout). split_and!.
    + by rewrite Hc.
    + intros Ha. destruct (decide (a ∈ l)) as [Hl|Hl].
      * rewrite (Hin Hl). destruct (decide (a = b)) as [->|Hne].
        -- by apply fitness_after_evaluate_again.
        -- by apply fitness_after_evaluate_ext, Hne1.
      * apply elem_of_cons in Ha as [->|Ha]; [|done].
        unfold fitness_at. rewrite (Hout Hl). exact Hb1.
    + intros [Hne Hl]%not_elem_of_cons. by rewrite (Hout Hl), Hne1.
Qed.

(** X3: after [evaluate] every individual of the population has as
    fitness the score of its chromosome, or, when the evaluation is lazy
    and it had a fitness, the fitness it had; no chromosome is changed,
    and no object outside the population is changed. *)
Theorem Population_evaluate_value lazy self st u st' :
  Population_evaluate lazy self st = Ok (u, st') →
  ∀ a, chromosome_at st' a = chromosome_at st a ∧
       (a ∈ individuals self →
        fitness_at st' a
          = fitness_after_evaluate (eval_function self) lazy st a) ∧
       (a ∉ individuals self → st' !! a = st !! a).
Proof. apply evaluate_each_value. Qed.

End EvaluateValue.

Lemma Population_evaluate_value_witness :
  ∃ st',
    Population_evaluate false pop1234 store1234 = Ok (tt, st') ∧
    fitness_at st' 2%nat = Some 3 ∧ chromosome_at st' 2%nat = Some 3.
Proof.
  eexists. split; [reflexivity|].
  destruct (Population_evaluate_value false pop1234 store1234 _ _ eq_refl 2%nat)
    as (Hc & Hf & _).
  split; [|by rewrite Hc]. rewrite Hf; [done|]. simpl. repeat constructor.
Defined.

(** ** The least and the greatest individual *)

Section Extremes.

Context {C : Type}.
Implicit Types st : Store C.
Implicit Types self : Population (C → Z).

(** The scan ends on the first element that no element beats. *)
Lemma py_first_best_spec {A} reverse (best : Z * A) (l : list (Z * A)) :
  ∃ i, (best :: l) !! i = Some (py_first_best reverse best l) ∧
    Forall (λ x, key_le reverse (py_first_best reverse best l).1 x.1 = true)
           (best :: l) ∧
    ∀ j x, (j < i)%nat → (best :: l) !! j = Some x →
           key_lt reverse (py_first_best reverse best l).1 x.1 = true.
Proof.
  revert best. induction l as [|x l IH]; intros best; simpl.
  - exists 0%nat. split_and!; [done | | intros; lia].
    repeat constructor. apply key_le_refl.
  - destruct (IH (if key_lt reverse x.1 best.1 then x else best))
      as (i & Hi & Hall & Hfirst).
    set (r := py_first_best reverse _ l) in *.
    apply Forall_cons_1 in Hall as [Hb Hall].
    destruct (key_lt reverse x.1 best.1) eqn:Hlt.
    + exists (S i). split_and!.
      * destruct i; [done|]. done.
      * constructor; [|by constructor].
        unfold key_le, key_lt in *. destruct reverse; lia.
      * intros [|[|j]] y Hj Hy; simpl in Hy.
        -- injection Hy as <-. unfold key_le, key_lt in *.
           destruct reverse; lia.
        -- injection Hy as <-. apply (Hfirst 0%nat x); [lia | done].
        -- apply (Hfirst (S j) y); [lia | done].
    + destruct i as [|i].
      * exists 0%nat. simpl in Hi. split_and!; [done | | intros; lia].
        constructor; [done|]. constructor; [|done]. injection Hi as Hi.
        rewrite <- Hi. unfold key_le, key_lt in *. destruct reverse; lia.
      * exists (S (S i)). split_and!.
        -- done.
        -- constructor; [done|]. constructor; [|done].
           pose proof (Hfirst 0%nat best) as H0. simpl in H0.
           specialize (H0 ltac:(lia) eq_refl).
           unfold key_le, key_lt in *. destruct reverse; lia.
        -- intros [|[|j]] y Hj Hy; simpl in Hy.
           ++ injection Hy as <-. apply (Hfirst 0%nat best); [lia | done].
           ++ injection Hy as <-.
              pose proof (Hfirst 0%nat best) as H0. simpl in H0.
              specialize (H0 ltac:(lia) eq_refl).
              unfold key_le, key_lt in *. destruct reverse; lia.
           ++ apply (Hfirst (S j) y); [lia | done].
Qed.

Lemma keyed_first_best reverse (l : list addr) st x kl :
  keyed l st = Ok (x :: kl, st) →
  ∃ i, l !! i = Some (py_first_best reverse x kl).2 ∧
    fitness_at st (py_first_best reverse x kl).2
      = Some (py_first_best reverse x kl).1 ∧
    (∀ b, b ∈ l → ∃ fb, fitness_at st b = Some fb ∧
                        key_le reverse (py_first_best reverse x kl).1 fb = true) ∧
    (∀ j b, (j < i)%nat → l !! j = Some b →
       ∃ fb, fitness_at st b = Some fb ∧
             key_lt reverse (py_first_best reverse x kl).1 fb = true).
Proof.
  intros (_ & Hl & Hfit)%keyed_Ok.
  destruct (py_first_best_spec reverse x kl) as (i & Hi & Hall & Hfirst).
  set (r := py_first_best reverse x kl) in *.
  rewrite List.Forall_forall in Hfit, Hall.
  exists i. split_and!.
  - by rewrite <- Hl, list_lookup_fmap, Hi.
  - apply Hfit, list_elem_of_In. by eapply list_elem_of_lookup_2.
  - intros b Hb. rewrite <- Hl in Hb.
    apply list_elem_of_fmap in Hb as (p & -> & Hp%list_elem_of_In).
    exists p.1. split; [by apply Hfit | by apply Hall].
  - intros j b Hj Hb. rewrite <- Hl, list_lookup_fmap in Hb.
    destruct ((x :: kl) !! j) as [p|] eqn:Hp; [|done]. injection Hb as <-.
    exists p.1. split; [|by eapply Hfirst].
    apply Hfit, list_elem_of_In. by eapply list_elem_of_lookup_2.
Qed.

Lemma keyed_nil (l : list addr) st kl :
  keyed l st = Ok (kl, st) → (kl = [] ↔ l = []).
Proof.
  intros (_ & <- & _)%keyed_Ok. destruct kl; simpl; split; done.
Qed.

(** X4: [min_individual] of a population of live individuals.  Of an
    empty population it is a [ValueError].  Otherwise it evaluates
    lazily and returns an individual of the population whose fitness is
    at most that of every individual, the first such in the sequence;
    [maximize] plays no part. *)
Theorem min_individual_first_least self st :
  Forall (live st) (individuals self) →
  (individuals self = [] →
   Population_min_individual Population_evaluate self st = Err ValueError) ∧
  (individuals self ≠ [] →
   ∃ a st' i f,
     Population_min_individual Population_evaluate self st = Ok (a, st') ∧
     Population_evaluate true self st = Ok (tt, st') ∧
     individuals self !! i = Some a ∧
     fitness_at st' a = Some f ∧
     (∀ b, b ∈ individuals self →
        ∃ fb, fitness_at st' b = Some fb ∧ f ≤ fb) ∧
     (∀ j b, (j < i)%nat → individuals self !! j = Some b →
        ∃ fb, fitness_at st' b = Some fb ∧ f < fb)).
Proof.
  intros Hlive. unfold Population_min_individual.
  destruct (Population_evaluate_total true self st Hlive) as [st' Heval].
  rewrite (bind_run _ _ _ _ _ Heval).
  destruct (Population_evaluate_evaluated _ _ _ _ _ Heval) as [_ Hev].
  destruct (keyed_total _ _ Hev) as [kl Hkl].
  rewrite (bind_run _ _ _ _ _ Hkl).
  pose proof (keyed_nil _ _ _ Hkl) as Hnil. split.
  - intros Hempty. apply Hnil in Hempty as ->. done.
  - intros Hne. destruct kl as [|x kl]; [by destruct Hne; apply Hnil|].
    destruct (keyed_first_best false _ _ _ _ Hkl) as (i & Hi & Hf & Hle & Hlt).
    exists (py_first_best false x kl).2, st', i, (py_first_best false x kl).1.
    split_and!; [done | done | done | done | |].
    + intros b Hb. destruct (Hle b Hb) as (fb & Hfb & Hkey).
      exists fb. split; [done|]. unfold key_le in Hkey. lia.
    + intros j b Hj Hb. destruct (Hlt j b Hj Hb) as (fb & Hfb & Hkey).
      exists fb. split; [done|]. unfold key_lt in Hkey. lia.
Qed.

(** X5: [max_individual] of a population of live individuals.  Of an
    empty population it is a [ValueError].  Otherwise it evaluates
    lazily and returns an individual of the population whose fitness is
    at least that of every individual, the first such in the sequence;
    [maximize] plays no part. *)
Theorem max_individual_first_greatest self st :
  Forall (live st) (individuals self) →
  (individuals self = [] →
   Population_max_individual Population_evaluate self st = Err ValueError) ∧
  (individuals self ≠ [] →
   ∃ a st' i f,
     Population_max_individual Population_evaluate self st = Ok (a, st') ∧
     Population_evaluate true self st = Ok (tt, st') ∧
     individuals self !! i = Some a ∧
     fitness_at st' a = Some f ∧
     (∀ b, b ∈ individuals self →
        ∃ fb, fitness_at st' b = Some fb ∧ fb ≤ f) ∧
     (∀ j b, (j < i)%nat → individuals self !! j = Some b →
        ∃ fb, fitness_at st' b = Some fb ∧ fb < f)).
Proof.
  intros Hlive. unfold Population_max_individual.
  destruct (Population_evaluate_total true self st Hlive) as [st' Heval].
  rewrite (bind_run _ _ _ _ _ Heval).
  destruct (Population_evaluate_evaluated _ _ _ _ _ Heval) as [_ Hev].
  destruct (keyed_total _ _ Hev) as [kl Hkl].
  rewrite (bind_run _ _ _ _ _ Hkl).
  pose proof (keyed_nil _ _ _ Hkl) as Hnil. split.
  - intros Hempty. apply Hnil in Hempty as ->. done.
  - intros Hne. destruct kl as [|x kl]; [by destruct Hne; apply Hnil|].
    destruct (keyed_first_best true _ _ _ _ Hkl) as (i & Hi & Hf & Hle & Hlt).
    exists (py_first_best true x kl).2, st', i, (py_first_best true x kl).1.
    split_and!; [done | done | done | done | |].
    + intros b Hb. destruct (Hle b Hb) as (fb & Hfb & Hkey).
      exists fb. split; [done|]. unfold key_le in Hkey. lia.
    + intros j b Hj Hb. destruct (Hlt j b Hj Hb) as (fb & Hfb & Hkey).
      exists fb. split; [done|]. unfold key_lt in Hkey. lia.
Qed.

End Extremes.

Lemma min_individual_first_least_witness :
  ∃ a st' f,
    Population_min_individual Population_evaluate pop1234 store1234
      = Ok (a, st') ∧
    fitness_at st' a = Some f ∧
    ∀ b, b ∈ individuals pop1234 → ∃ fb, fitness_at st' b = Some fb ∧ f ≤ fb.
Proof.
  destruct (min_individual_first_least pop1234 store1234) as [_ Hmin].
  - unfold live. repeat constructor.
  - destruct Hmin as (a & st' & i & f & Hrun & _ & _ & Hf & Hle & _); [done|].
    by exists a, st', f.
Defined.

Lemma max_individual_first_greatest_witness :
  ∃ a st' f,
    Population_max_individual Population_evaluate pop1234 store1234
      = Ok (a, st') ∧
    fitness_at st' a = Some f ∧
    ∀ b, b ∈ individuals pop1234 → ∃ fb, fitness_at st' b = Some fb ∧ fb ≤ f.
Proof.
  destruct (max_individual_first_greatest pop1234 store1234) as [_ Hmax].
  - unfold live. repeat constructor.
  - destruct Hmax as (a & st' & i & f & Hrun & _ & _ & Hf & Hle & _); [done|].
    by exists a, st', f.
Defined.

(** ** Maps and filters *)

Section MapFilter.

Context {C E : Type}.
Implicit Types st : Store C.
Implicit Types self : Population E.

Lemma selected_sublist (l : list addr) (flags : list bool) :
  map fst (filter (λ p, p.2 = true) (zip l flags)) `sublist_of` l.
Proof.
  revert flags. induction l as [|a l IH]; intros [|f flags]; simpl;
    try apply sublist_nil_l.
  rewrite filter_cons. simpl. case_decide; simpl.
  - by apply sublist_skip.
  - by apply sublist_cons.
Qed.

Lemma collect_reads {A B} (f : A → M C B) (g : Store C → A → option B) l st :
  (∀ x s, f x s = match g s x with
                  | Some y => Ok (y, s)
                  | None => Err DanglingRef
                  end) →
  ∀ ys st', collect f l st = Ok (ys, st') →
    st' = st ∧ Forall2 (λ x y, g st x = Some y) l ys.
Proof.
  intros Hf. induction l as [|x l IH]; intros ys st' Hrun; simpl in Hrun.
  - apply ret_Ok in Hrun as [<- <-]. by split.
  - apply bind_Ok in Hrun as (y & st1 & Hy & Hrun).
    rewrite Hf in Hy. destruct (g st x) as [y'|] eqn:Hg; [|done].
    injection Hy as <- <-.
    apply bind_Ok in Hrun as (ys' & st2 & Hys & [<- <-]%ret_Ok).
    destruct (IH _ _ Hys) as [-> Hall]. split; [done | by constructor].
Qed.

(** X6: a [filter] that returns leaves a subsequence of the
    individuals, in the order they had, and changes no other attribute
    of the population.  When the predicate only reads the individual it
    is given, the store is left as it was, fitness included, and the
    individuals kept are exactly those for which the predicate holds. *)
Theorem Population_filter_subsequence func self st self' st' :
  Population_filter func self st = Ok (self', st') →
  individuals self' `sublist_of` individuals self ∧
  self' = set_individuals (individuals self') self ∧
  ∀ pred : Individual C → bool,
    (∀ a s, func a s = match s !! a with
                       | Some ind => Ok (pred ind, s)
                       | None => Err DanglingRef
                       end) →
    st' = st ∧
    individuals self'
      = filter (λ a, pred <$> st !! a = Some true) (individuals self).
Proof.
  unfold Population_filter.
  intros (flags & st1 & Hflags & [<- <-]%ret_Ok)%bind_Ok. simpl.
  split_and!; [apply selected_sublist | done |].
  intros pred Hfunc.
  destruct (collect_reads func (λ s a, pred <$> s !! a) (individuals self) st)
    with (ys := flags) (st' := st1) as [-> Hall]; [|done|].
  { intros a s. rewrite Hfunc. by destruct (s !! a). }
  split; [done|]. clear -Hall.
  induction Hall as [|a f l flags Ha _ IH]; [done|].
  simpl. rewrite !filter_cons. simpl. rewrite Ha, <- IH.
  destruct f; repeat case_decide; simplify_eq; done.
Qed.

(** X7: a [map] that returns leaves as many individuals as there were
    and changes no other attribute of the population; when the function
    returns the individual it is given, the individuals are the same,
    in the same order. *)
Theorem Population_map_shape func self st self' st' :
  Population_map func self st = Ok (self', st') →
  length (individuals self') = length (individuals self) ∧
  self' = set_individuals (individuals self') self ∧
  ((∀ a s b s', func a s = Ok (b, s') → b = a) →
   individuals self' = individuals self).
Proof.
  unfold Population_map.
  intros (inds & st1 & Hinds & [<- <-]%ret_Ok)%bind_Ok. simpl.
  split_and!; [by eapply collect_length | done |].
  intros Hsame. revert st inds Hinds.
  induction (individuals self) as [|a l IH]; intros st inds Hrun;
    simpl in Hrun.
  - by apply ret_Ok in Hrun as [<- _].
  - apply bind_Ok in Hrun as (b & st2 & Hb & Hrun).
    apply bind_Ok in Hrun as (bs & st3 & Hbs & [<- <-]%ret_Ok).
    f_equal; [by eapply Hsame | by eapply IH].
Qed.

End MapFilter.

(** ** More on survival *)

Section SurviveMore.

Context {C : Type}.
Implicit Types st : Store C.
Implicit Types self : Population (C → Z).

(** The survivors are individuals of the population. *)
Lemma Population_survive_within {E} evaluate rnd fraction n luck
    (self self' : Population E) st st' :
  Population_survive evaluate rnd fraction n luck self st = Ok (self', st') →
  ∀ a, a ∈ individuals self' → a ∈ individuals self.
Proof.
  intros (size & u & _ & _ & _ & _ & Hsel)%Population_survive_Ok a Ha.
  destruct luck.
  - destruct Hsel as (weights & inds & _ & [_ Hin]%choices_length & ->).
    by apply Hin.
  - destruct Hsel as (kl & (_ & Hkl & _)%keyed_Ok & ->). simpl in Ha.
    destruct (py_slice_to_prefix (map snd (sorted (maximize self) kl)) size)
      as (m & Hm & _).
    rewrite Hm in Ha. apply subseteq_take in Ha.
    by rewrite sorted_perm, Hkl in Ha.
Qed.

(** X8: the exceptions of [survive] on a population of live
    individuals, with or without luck: a [ValueError] when neither
    [fraction] nor [n] is given, a [RuntimeError] when the size computed
    is 0, a [ValueError] when it is more than the population has. *)
Theorem survive_exceptions self rnd fraction n luck st :
  Forall (live st) (individuals self) →
  let len := length (individuals self) in
  let run := Population_survive Population_evaluate rnd fraction n luck self st in
  (fraction = None → n = None → run = Err ValueError) ∧
  (resulting_size fraction n len = Ok 0 → run = Err RuntimeError) ∧
  (∀ size, resulting_size fraction n len = Ok size →
           Z.of_nat len < size → run = Err ValueError).
Proof.
  intros Hlive len run.
  destruct (Population_evaluate_total true self st Hlive) as [st1 Heval].
  split_and!.
  - intros -> ->. done.
  - intros Hsize. unfold run, Population_survive. fold len. rewrite Hsize.
    unfold lift. rewrite (bind_run _ _ st 0 st) by done.
    by rewrite (bind_run _ _ _ _ _ Heval).
  - intros size Hsize Hbig. unfold run, Population_survive. fold len.
    rewrite Hsize. unfold lift. rewrite (bind_run _ _ st size st) by done.
    rewrite (bind_run _ _ _ _ _ Heval).
    rewrite (proj2 (Z.eqb_neq size 0)) by lia.
    by rewrite (proj2 (Z.gtb_gt size (Z.of_nat len))) by lia.
Qed.

Lemma py_round_whole (q : Q) (z : Z) : Qeq q (inject_Z z) → py_round q = z.
Proof.
  intros Hq. unfold py_round.
  rewrite (Qfloor_comp _ _ Hq), Qfloor_Z.
  assert (Qcompare (Qminus q (inject_Z z)) (1 # 2) = Lt) as ->; [|done].
  apply Qlt_alt. rewrite Hq. unfold Qminus. rewrite Qplus_opp_r. done.
Qed.

(** X9: asking for as many survivors as there are individuals is not an
    error, be it by [n] or by the fraction 1: without luck, every
    individual of a population of live individuals, not empty, survives,
    and the population is the same individuals in the order of their
    fitness. *)
Theorem survive_everyone self rnd fraction n st :
  Forall (live st) (individuals self) →
  individuals self ≠ [] →
  (fraction = None ∧ n = Some (Z.of_nat (length (individuals self))) ∨
   fraction = Some 1%Q ∧ n = None) →
  ∃ self' st',
    Population_survive Population_evaluate rnd fraction n false self st
      = Ok (self', st') ∧
    individuals self' ≡ₚ individuals self ∧
    StronglySorted (ranked_before st' (maximize self)) (individuals self').
Proof.
  intros Hlive Hne Hargs.
  set (len := length (individuals self)).
  assert (resulting_size fraction n len = Ok (Z.of_nat len)) as Hsize.
  { destruct Hargs as [[-> ->]|[-> ->]]; [done|]. simpl. f_equal.
    apply py_round_whole, Qmult_1_l. }
  assert (len ≠ 0)%nat as Hlen.
  { unfold len. by destruct (individuals self). }
  pose proof (Population_survive_total self rnd fraction n _ st Hsize) as Hok.
  destruct (Population_survive _ _ _ _ _ _ _) as [[self' st']|e] eqn:Hrun;
    [|exfalso; apply Hok; [lia | lia | done]].
  exists self', st'. split; [done|].
  apply Population_survive_Ok in Hrun
    as (size & u & Hsize' & _ & _ & _ & kl & Hkl & ->).
  fold len in Hsize'. rewrite Hsize in Hsize'. injection Hsize' as <-.
  apply keyed_Ok in Hkl as (_ & Hl & Hfit). simpl.
  assert (py_slice_to (map snd (sorted (maximize self) kl)) (Z.of_nat len)
          = map snd (sorted (maximize self) kl)) as ->.
  { unfold py_slice_to. rewrite (proj2 (Z.leb_le 0 _)) by lia.
    apply take_ge. rewrite length_map, sorted_length, <- (length_map snd), Hl.
    unfold len. lia. }
  split.
  - by rewrite sorted_perm, Hl.
  - apply ranked_sorted; [by rewrite sorted_perm | apply sorted_sorted].
Qed.

(** X10: [survive] and then [breed].  After a survival without error
    of a population of live individuals whose intended size is at least
    the number of survivors, a breeding with a picker that picks
    existing individuals does not fail and brings the population to its
    intended size, the survivors first and in their order. *)
Theorem survive_then_breed self rnd fraction n luck parent_picker combiner
    st self1 st1 :
  Forall (live st) (individuals self) →
  picks_live parent_picker →
  Population_survive Population_evaluate rnd fraction n luck self st
    = Ok (self1, st1) →
  Z.of_nat (length (individuals self1)) ≤ intended_size self →
  ∃ self2 log children,
    Population_breed parent_picker combiner PyNone self1 st1
      = Ok ((self2, log), st1 ++ children) ∧
    Z.of_nat (length (individuals self2)) = intended_size self ∧
    take (length (individuals self1)) (individuals self2) = individuals self1 ∧
    Forall (λ child, fitness child = None) children.
Proof.
  intros Hlive Hpick Hsurvive Hsize.
  pose proof (Population_survive_within _ _ _ _ _ _ _ _ _ Hsurvive) as Hin.
  apply Population_survive_Ok in Hsurvive
    as (size & u & _ & Heval & _ & _ & Hsel).
  apply Population_evaluate_evaluated in Heval as [[Hlen _] _].
  assert (intended_size self1 = intended_size self) as Hint.
  { destruct luck.
    - by destruct Hsel as (? & ? & _ & _ & ->).
    - by destruct Hsel as (? & _ & ->). }
  assert (Forall (live st1) (individuals self1)) as Hlive1.
  { rewrite List.Forall_forall in Hlive. apply List.Forall_forall.
    intros a Ha%list_elem_of_In%Hin%list_elem_of_In%Hlive.
    unfold live in *. lia. }
  pose proof (breed_loop_total parent_picker combiner
                (length (individuals self1))
                (seq 0 (Z.to_nat (intended_size self1
                                  - Z.of_nat (length (individuals self1)))))
                self1 st1 Hpick Hlive1) as Hok.
  unfold Population_breed. simpl.
  destruct (breed_loop _ _ _ _ _ _) as [[[self2 log] st2]|e] eqn:Hloop;
    [clear Hok | done].
  apply breed_loop_Ok in Hloop as (children & -> & Hchildren & -> & -> & Hbred);
    [|done].
  rewrite length_seq in Hchildren.
  eexists _, _, children. split; [done|]. simpl. split_and!.
  - rewrite length_app, !length_seq. lia.
  - by rewrite take_app_length.
  - apply Forall_lookup_2. intros k child Hk.
    destruct (Hbred k k child) as (cs & _ & ->); [|done|done].
    apply lookup_seq. split; [done|]. apply lookup_lt_Some in Hk. lia.
Qed.

End SurviveMore.

Lemma Population_filter_subsequence_witness :
  ∃ self',
    Population_filter even_chromosome pop1234 store1234
      = Ok (self', store1234) ∧
    individuals self' = [1; 3]%nat ∧
    individuals self' `sublist_of` individuals pop1234.
Proof.
  exists (set_individuals [1; 3]%nat pop1234).
  split; [reflexivity|]. split; [reflexivity|].
  by apply (Population_filter_subsequence even_chromosome pop1234 store1234
              (set_individuals [1; 3]%nat pop1234) store1234).
Defined.

Lemma Population_map_shape_witness :
  ∃ self' st',
    Population_map same_individual pop1234 store1234 = Ok (self', st') ∧
    length (individuals self') = 4%nat ∧
    individuals self' = individuals pop1234.
Proof.
  eexists _, _. split; [reflexivity|].
  destruct (Population_map_shape same_individual pop1234 store1234 _ _ eq_refl)
    as (Hlen & _ & Hsame).
  split; [exact Hlen|]. apply Hsame.
  intros a s b s' [= <- _]. done.
Defined.

Lemma survive_exceptions_witness :
  Population_survive Population_evaluate (λ _, 0%nat) None None false
    pop1234 store1234 = Err ValueError ∧
  Population_survive Population_evaluate (λ _, 0%nat) (Some (1 # 10)%Q) None
    false pop1234 store1234 = Err RuntimeError ∧
  Population_survive Population_evaluate (λ _, 0%nat) None (Some 5) true
    pop1234 store1234 = Err ValueError.
Proof.
  assert (Forall (live store1234) (individuals pop1234)) as Hlive.
  { unfold live. repeat constructor. }
  split_and!.
  - by apply (survive_exceptions pop1234 (λ _, 0%nat) None None false
                store1234 Hlive).
  - by apply (survive_exceptions pop1234 (λ _, 0%nat) (Some (1 # 10)%Q) None
                false store1234 Hlive).
  - by apply (survive_exceptions pop1234 (λ _, 0%nat) None (Some 5) true
                store1234 Hlive) with (size := 5).
Defined.

Lemma survive_everyone_witness :
  ∃ self' st',
    Population_survive Population_evaluate (λ _, 0%nat) (Some 1%Q) None false
      pop1234 store1234 = Ok (self', st') ∧
    individuals self' ≡ₚ individuals pop1234.
Proof.
  destruct (survive_everyone pop1234 (λ _, 0%nat) (Some 1%Q) None store1234)
    as (self' & st' & Hrun & Hperm & _).
  - unfold live. repeat constructor.
  - done.
  - by right.
  - by exists self', st'.
Defined.

Lemma survive_then_breed_witness :
  ∃ self1 st1 self2 log children,
    Population_survive Population_evaluate (λ _, 0%nat) None (Some 2) false
      pop1234 store1234 = Ok (self1, st1) ∧
    Population_breed pick_two add_up PyNone self1 st1
      = Ok ((self2, log), st1 ++ children) ∧
    Z.of_nat (length (individuals self2)) = 4.
Proof.
  edestruct (survive_then_breed pop1234 (λ _, 0%nat) None (Some 2) false
              pick_two add_up store1234)
    as (self2 & log & children & Hrun & Hlen & _).
  - unfold live. repeat constructor.
  - exact pick_two_live.
  - vm_compute. reflexivity.
  - simpl. lia.
  - eexists _, _, self2, log, children.
    split; [vm_compute; reflexivity|]. split; [exact Hrun | exact Hlen].
Defined.

(** ** More on breeding *)

Section BreedMore.

Context {C E : Type}.
Implicit Types st : Store C.
Implicit Types self : Population E.

(** X11: a truthy [population_size] becomes the intended size.  With a
    picker that picks existing individuals, the population of live
    individuals is filled up to it, the individuals it had first; when
    it is no more than the population has, nothing is bred and nothing
    is cut: the population, the store and the individuals are as they
    were, but for the intended size, and the picker is not called. *)
Theorem breed_population_size parent_picker combiner population_size self st :
  truthy population_size = true →
  Forall (live st) (individuals self) →
  picks_live parent_picker →
  ∃ self' log children,
    Population_breed parent_picker combiner population_size self st
      = Ok ((self', log), st ++ children) ∧
    intended_size self' = int_of population_size ∧
    Z.of_nat (length (individuals self'))
      = Z.max (Z.of_nat (length (individuals self))) (int_of population_size) ∧
    take (length (individuals self)) (individuals self') = individuals self ∧
    (int_of population_size ≤ Z.of_nat (length (individuals self)) →
     self' = set_intended_size (int_of population_size) self ∧
     children = [] ∧ log = []).
Proof.
  intros Htruthy Hlive Hpick. unfold Population_breed. rewrite Htruthy.
  set (self0 := set_intended_size (int_of population_size) self).
  pose proof (breed_loop_total parent_picker combiner
                (length (individuals self0))
                (seq 0 (Z.to_nat (intended_size self0
                                  - Z.of_nat (length (individuals self0)))))
                self0 st Hpick Hlive) as Hok.
  simpl in *.
  destruct (breed_loop _ _ _ _ _ _) as [[[self' log] st']|e] eqn:Hloop;
    [clear Hok | done].
  apply breed_loop_Ok in Hloop as (children & -> & Hlen & -> & -> & _);
    [|done].
  rewrite length_seq in Hlen. rewrite !length_seq. simpl in *.
  eexists _, _, children. split; [done|]. simpl. split_and!.
  - done.
  - rewrite length_app, length_seq. lia.
  - by rewrite take_app_length.
  - intros Hsmall.
    replace (Z.to_nat (int_of population_size
                       - Z.of_nat (length (individuals self)))) with 0%nat
      in * by lia.
    apply length_zero_iff_nil in Hlen as ->. simpl.
    split_and!; [|done|done]. unfold set_individuals, self0. simpl.
    by rewrite app_nil_r.
Qed.

End BreedMore.

Lemma breed_population_size_witness :
  ∃ self' log children,
    Population_breed pick_two add_up (PyInt 6) pop1234 store1234
      = Ok ((self', log), store1234 ++ children) ∧
    intended_size self' = 6 ∧
    Z.of_nat (length (individuals self')) = 6.
Proof.
  destruct (breed_population_size pick_two add_up (PyInt 6) pop1234 store1234)
    as (self' & log & children & Hrun & Hint & Hlen & _).
  - reflexivity.
  - unfold live. repeat constructor.
  - exact pick_two_live.
  - exists self', log, children. split_and!; done.
Defined.

(** ** More on contests *)

Section ContestMore.

Context {C : Type}.
Implicit Types st : Store C.
Implicit Types self : ContestPopulation C.

Lemma all_evaluated_false self st :
  Forall (live st) (individuals (base self)) →
  ¬ evaluated st (individuals (base self)) →
  all_evaluated self st = Ok (false, st).
Proof.
  intros Hlive Hnot.
  destruct (collect_load_live _ _ Hlive) as [inds Hload].
  destruct (all_evaluated self st) as [[b st1]|e] eqn:Hall.
  - destruct (all_evaluated_Ok _ _ _ _ Hall) as [-> Hb].
    destruct b; [by destruct Hnot; apply Hb | done].
  - unfold all_evaluated in Hall. by rewrite (bind_run _ _ _ _ _ Hload) in Hall.
Qed.

(** X12: a lazy contest evaluation is all or nothing.  When some
    individual of a population of live individuals has no fitness, it
    is the evaluation that is not lazy: every fitness starts again from
    0, the ones that were there included. *)
Theorem contest_lazy_all_or_nothing rnd self st :
  Forall (live st) (individuals (base self)) →
  ¬ evaluated st (individuals (base self)) →
  ContestPopulation_evaluate rnd true self st
  = ContestPopulation_evaluate rnd false self st.
Proof.
  intros Hlive Hnot. unfold ContestPopulation_evaluate, lazy_and.
  rewrite (bind_run _ _ _ _ _ (all_evaluated_false _ _ Hlive Hnot)).
  by rewrite (bind_run _ _ st false st).
Qed.

Lemma play_round_empty rnd self st :
  individuals (base self) = [] →
  play_round rnd self st
  = if 1 <? individuals_per_match self then Err ValueError else Ok (tt, st).
Proof.
  intros Hempty. unfold play_round, draw_offsets. rewrite Hempty. simpl.
  destruct (1 <? individuals_per_match self) eqn:Hipm.
  - destruct (Z.to_nat (individuals_per_match self - 1)) as [|k] eqn:Hk; [lia|].
    simpl. done.
  - replace (Z.to_nat (individuals_per_match self - 1)) with 0%nat by lia.
    done.
Qed.

Lemma play_rounds_empty (rnd : nat → nat → nat) self (rounds : list nat) st :
  individuals (base self) = [] →
  for_each (λ r, play_round (rnd r) self) rounds st
  = match rounds with
    | [] => Ok (tt, st)
    | _ :: _ =>
        if 1 <? individuals_per_match self then Err ValueError else Ok (tt, st)
    end.
Proof.
  intros Hempty. induction rounds as [|r rounds IH]; [done|]. simpl.
  pose proof (play_round_empty (rnd r) self st Hempty) as Hround.
  destruct (1 <? individuals_per_match self).
  - by rewrite (bind_Err _ _ _ _ Hround).
  - rewrite (bind_run _ _ _ _ _ Hround), IH. by destruct rounds.
Qed.

(** X13: the evaluation of a contest population without individuals.
    The lazy one returns at once.  The other one raises a [ValueError],
    from the draw of an offset in an empty range, when there is a round
    to play and more than one individual per match; otherwise it
    returns, the store as it was. *)
Theorem contest_evaluate_empty rnd self st :
  individuals (base self) = [] →
  ContestPopulation_evaluate rnd true self st = Ok (tt, st) ∧
  ContestPopulation_evaluate rnd false self st
  = if (0 <? matches_per_round self) && (1 <? individuals_per_match self)
    then Err ValueError else Ok (tt, st).
Proof.
  intros Hempty. split.
  - apply ContestPopulation_evaluate_lazy_skip. rewrite Hempty. constructor.
  - unfold ContestPopulation_evaluate, lazy_and.
    rewrite (bind_run _ _ st false st) by done.
    rewrite Hempty at 1. simpl for_each at 1.
    rewrite (bind_run _ _ st tt st) by done.
    rewrite (play_rounds_empty _ _ _ _ Hempty).
    destruct (0 <? matches_per_round self) eqn:Hmpr; simpl.
    + destruct (Z.to_nat (matches_per_round self)) as [|k] eqn:Hk; [lia|].
      done.
    + replace (Z.to_nat (matches_per_round self)) with 0%nat by lia. done.
Qed.

(** X14: without a round to play, the evaluation of a contest
    population of live individuals leaves every individual with the
    fitness 0, whatever the objective, and changes no other fitness. *)
Theorem contest_evaluate_no_round rnd self st :
  matches_per_round self ≤ 0 →
  Forall (live st) (individuals (base self)) →
  ∃ st',
    ContestPopulation_evaluate rnd false self st = Ok (tt, st') ∧
    ∀ a, fitness_at st' a
         = if decide (a ∈ individuals (base self)) then Some 0
           else fitness_at st a.
Proof.
  intros Hmpr Hlive.
  pose proof (zero_all_total _ _ Hlive) as Hzero.
  destruct (for_each _ (individuals (base self)) st) as [[[] st0]|e] eqn:Hst0;
    [clear Hzero | done].
  exists st0. split; [|by eapply zero_all_value].
  unfold ContestPopulation_evaluate, lazy_and.
  rewrite (bind_run _ _ st false st) by done.
  rewrite (bind_run _ _ _ _ _ Hst0).
  by replace (Z.to_nat (matches_per_round self)) with 0%nat by lia.
Qed.

End ContestMore.

Section ContestRounds.

Context {C : Type}.
Implicit Types st : Store C.
Implicit Types self : ContestPopulation C.

Lemma play_rounds_first (rnd : nat → nat → nat) self (rounds : list nat) st :
  (∀ inds, eval_function (base self) inds = [1; 0]) →
  individuals (base self) ≠ [] →
  evaluated st (individuals (base self)) →
  ∃ st',
    for_each (λ r, play_round (rnd r) self) rounds st = Ok (tt, st') ∧
    ∀ a, fitness_at st' a
         = add_credit
             (Z.of_nat (length rounds
                        * length (filter (λ x, x = a) (individuals (base self)))))
             (fitness_at st a).
Proof.
  intros Heval Hne. revert st.
  induction rounds as [|r rounds IH]; intros st Hev.
  - exists st. split; [done|]. intros a. simpl.
    destruct (fitness_at st a); simpl; [f_equal; lia | done].
  - destruct (draw_offsets_Ok (rnd r) self Hne) as (drawn & Hdraw & _ & _).
    set (matches := contest_matches (individuals (base self)) (0 :: drawn)).
    pose proof (play_matches_total (eval_function (base self)) _ matches st Hev)
      as Hplay.
    destruct (for_each (play_match _) matches st) as [[[] st1]|e] eqn:Hst1;
      [clear Hplay | exfalso; apply Hplay; by apply contest_matches_within].
    assert (play_round (rnd r) self st = Ok (tt, st1)) as Hround.
    { unfold play_round. by rewrite (bind_run _ _ _ _ _ (Hdraw st)). }
    destruct (IH st1) as (st' & Hrest & Hfit).
    { apply play_round_keeps in Hround as [_ Hkeep].
      eapply list.Forall_impl; [exact Hev|]. auto. }
    exists st'. simpl. rewrite (bind_run _ _ _ _ _ Hround).
    split; [done|]. intros a.
    rewrite Hfit, (play_matches_first _ _ _ _ _ Heval Hst1 a), add_credit_add.
    unfold matches. rewrite anchored_occurrences. f_equal. lia.
Qed.

(** X15: with an objective that gives 1 to the first competitor of a
    match and 0 to the second, the evaluation of a contest population
    of live individuals, not empty, gives every individual the number
    of rounds as fitness, once for every place it has in the sequence,
    whatever the offsets drawn and the number of individuals per match:
    the scores of the rounds add up. *)
Theorem contest_rounds_add_up rnd self st :
  (∀ inds, eval_function (base self) inds = [1; 0]) →
  individuals (base self) ≠ [] →
  Forall (live st) (individuals (base self)) →
  ∃ st',
    ContestPopulation_evaluate rnd false self st = Ok (tt, st') ∧
    ∀ a, a ∈ individuals (base self) →
      fitness_at st' a
        = Some (Z.max 0 (matches_per_round self)
                * Z.of_nat (length (filter (λ x, x = a)
                                           (individuals (base self))))) ∧
      (NoDup (individuals (base self)) →
       fitness_at st' a = Some (Z.max 0 (matches_per_round self))).
Proof.
  intros Heval Hne Hlive.
  pose proof (zero_all_total _ _ Hlive) as Hzero.
  destruct (for_each _ (individuals (base self)) st) as [[[] st0]|e] eqn:Hst0;
    [clear Hzero | done].
  pose proof (zero_all_value _ _ _ _ Hst0) as Hval.
  assert (evaluated st0 (individuals (base self))) as Hev.
  { apply List.Forall_forall. intros a Ha%list_elem_of_In.
    rewrite Hval, decide_True by done. by eexists. }
  destruct (play_rounds_first rnd self
              (seq 0 (Z.to_nat (matches_per_round self))) st0 Heval Hne Hev)
    as (st' & Hrounds & Hfit).
  exists st'. split.
  - unfold ContestPopulation_evaluate, lazy_and.
    rewrite (bind_run _ _ st false st) by done.
    by rewrite (bind_run _ _ _ _ _ Hst0).
  - intros a Ha.
    assert (fitness_at st' a
            = Some (Z.max 0 (matches_per_round self)
                    * Z.of_nat (length (filter (λ x, x = a)
                                               (individuals (base self))))))
      as Hsum.
    { rewrite Hfit, Hval, decide_True by done. rewrite length_seq. simpl.
      f_equal. lia. }
    split; [done|]. intros Hnodup.
    rewrite Hsum, occurrences_NoDup by done. f_equal. lia.
Qed.

#[export] Instance outside_unchanged_refl l :
  Reflexive (@outside_unchanged C l).
Proof. by intros st. Qed.

#[export] Instance outside_unchanged_trans l :
  Transitive (@outside_unchanged C l).
Proof.
  intros st1 st2 st3 [Hc1 Ho1] [Hc2 Ho2]. split.
  - intros a. by rewrite Hc2.
  - intros a Ha. by rewrite Ho2, Ho1.
Qed.

Lemma set_fitness_outside (l : list addr) b f st u st' :
  b ∈ l → set_fitness b f st = Ok (u, st') → outside_unchanged l st st'.
Proof.
  intros Hb (ind & Hind & ->)%set_fitness_Ok. split.
  - intros a. by apply chromosome_at_set.
  - intros a Ha. apply list_lookup_insert_ne. by intros ->.
Qed.

Lemma add_fitness_outside (l : list addr) b score st u st' :
  b ∈ l → add_fitness b score st = Ok (u, st') → outside_unchanged l st st'.
Proof.
  intros Hb (ind & f & Hind & _ & ->)%add_fitness_Ok. split.
  - intros a. by apply chromosome_at_set.
  - intros a Ha. apply list_lookup_insert_ne. by intros ->.
Qed.

Lemma play_match_outside (l : list addr) (eval : Contest C) m st u st' :
  Forall (λ a, a ∈ l) m →
  play_match eval m st = Ok (u, st') → outside_unchanged l st st'.
Proof.
  intros Hm. unfold play_match.
  intros (inds & st1 & [-> _]%collect_load & Hrun)%bind_Ok.
  revert Hrun. apply for_each_preserves; [apply _ ..|].
  intros [a s] ? ? ? Hin%elem_of_zip_l. apply add_fitness_outside.
  rewrite List.Forall_forall in Hm. by apply Hm, list_elem_of_In.
Qed.

Lemma play_round_outside rnd self st u st' :
  play_round rnd self st = Ok (u, st') →
  outside_unchanged (individuals (base self)) st st'.
Proof.
  unfold play_round. intros (offsets & st1 & Hdraw & Hrun)%bind_Ok.
  pose proof (draw_offsets_store _ _ _ _ _ Hdraw) as ->.
  assert (offsets ≠ []) as Hoff.
  { unfold draw_offsets in Hdraw.
    by apply bind_Ok in Hdraw as (drawn & st2 & _ & [<- _]%ret_Ok). }
  pose proof (contest_matches_within (individuals (base self)) offsets Hoff)
    as Hwithin.
  revert Hrun. apply for_each_preserves; [apply _ ..|].
  intros m ? ? ? Hm%list_elem_of_In. apply play_match_outside.
  rewrite List.Forall_forall in Hwithin. by apply Hwithin.
Qed.

(** X16: a contest evaluation that returns has changed no chromosome
    and no object that is not an individual of the population, and has
    neither made nor dropped an object. *)
Theorem contest_evaluate_frame rnd lazy self st u st' :
  ContestPopulation_evaluate rnd lazy self st = Ok (u, st') →
  length st' = length st ∧
  (∀ a, chromosome_at st' a = chromosome_at st a) ∧
  (∀ a, a ∉ individuals (base self) → st' !! a = st !! a).
Proof.
  intros Hrun.
  split; [by apply ContestPopulation_evaluate_evaluated in Hrun as [? _]|].
  change (outside_unchanged (individuals (base self)) st st').
  unfold ContestPopulation_evaluate in Hrun.
  apply bind_Ok in Hrun as (b & st1 & Htest & Hrun).
  assert (st1 = st) as ->.
  { destruct lazy; simpl in Htest.
    - by apply all_evaluated_Ok in Htest as [-> _].
    - by apply ret_Ok in Htest as [_ <-]. }
  destruct b.
  - by apply ret_Ok in Hrun as [_ <-].
  - apply bind_Ok in Hrun as (u1 & st2 & Hzero & Hrounds).
    transitivity st2.
    + revert Hzero. apply for_each_preserves; [apply _ ..|].
      intros a ? ? ? Ha. by apply set_fitness_outside.
    + revert Hrounds. apply for_each_preserves; [apply _ ..|].
      intros r ? ? ? _. apply play_round_outside.
Qed.

End ContestRounds.

Lemma contest_lazy_all_or_nothing_witness :
  ∃ st',
    ContestPopulation_evaluate (λ _ _, 1%nat) true contest3 store3_half
      = Ok (tt, st') ∧
    ContestPopulation_evaluate (λ _ _, 1%nat) false contest3 store3_half
      = Ok (tt, st') ∧
    fitness_at st' 0%nat = Some 1.
Proof.
  eexists. split; [|split; [vm_compute; reflexivity | reflexivity]].
  rewrite (contest_lazy_all_or_nothing (λ _ _, 1%nat) contest3 store3_half).
  - vm_compute. reflexivity.
  - unfold live. repeat constructor.
  - intros Hev. apply Forall_cons_1 in Hev as [_ Hev].
    apply Forall_cons_1 in Hev as [[f Hf] _]. discriminate.
Defined.

Lemma contest_evaluate_empty_witness :
  ContestPopulation_evaluate (λ _ _, 0%nat) true contest0 [] = Ok (tt, []) ∧
  ContestPopulation_evaluate (λ _ _, 0%nat) false contest0 []
    = Err ValueError.
Proof.
  by destruct (contest_evaluate_empty (λ _ _, 0%nat) contest0 [] eq_refl).
Defined.

Lemma contest_evaluate_no_round_witness :
  ∃ st',
    ContestPopulation_evaluate (λ _ _, 0%nat) false
      (mkContestPopulation (base contest3) 0 2) store3_half = Ok (tt, st') ∧
    fitness_at st' 0%nat = Some 0.
Proof.
  destruct (contest_evaluate_no_round (λ _ _, 0%nat)
              (mkContestPopulation (base contest3) 0 2) store3_half)
    as (st' & Hrun & Hfit).
  - simpl. lia.
  - unfold live. repeat constructor.
  - exists st'. split; [done|]. rewrite Hfit. done.
Defined.

Lemma contest_rounds_add_up_witness :
  ∃ st',
    ContestPopulation_evaluate (λ r j, (r + j)%nat) false contest3x3 store3
      = Ok (tt, st') ∧
    fitness_at st' 1%nat = Some 3.
Proof.
  destruct (contest_rounds_add_up (λ r j, (r + j)%nat) contest3x3 store3)
    as (st' & Hrun & Hfit).
  - done.
  - done.
  - unfold live. repeat constructor.
  - exists st'. split; [done|]. apply (Hfit 1%nat).
    + simpl. repeat constructor.
    + apply (bool_decide_unpack _). by vm_compute.
Defined.

Lemma contest_evaluate_frame_witness :
  ∃ st',
    ContestPopulation_evaluate (λ _ _, 1%nat) false contest3 store3
      = Ok (tt, st') ∧
    length st' = 3%nat ∧
    chromosome_at st' 2%nat = Some 30.
Proof.
  eexists. split; [vm_compute; reflexivity|].
  destruct (contest_evaluate_frame (λ _ _, 1%nat) false contest3 store3 _ _
              eq_refl) as (Hlen & Hchrom & _).
  split; [exact Hlen | by rewrite Hchrom].
Defined.

Section Recompute.

Context {C : Type}.
Implicit Types st : Store C.
Implicit Types self : ContestPopulation C.

Lemma reset_then_lazy self st u st' rnd :
  reset_fitness self st = Ok (u, st') →
  individuals (base self) ≠ [] →
  ContestPopulation_evaluate rnd true self st'
  = ContestPopulation_evaluate rnd false self st'.
Proof.
  intros [_ Hnone]%reset_fitness_unevaluated Hne.
  assert (Forall (live st') (individuals (base self))) as Hlive.
  { eapply list.Forall_impl; [exact Hnone|].
    intros a (ind & Ha & _). by eapply lookup_lt_Some. }
  assert (¬ evaluated st' (individuals (base self))) as Hnot.
  { destruct (individuals (base self)) as [|a l]; [done|].
    intros [[f Hf] _]%Forall_cons_1.
    apply Forall_cons_1 in Hnone as [(ind & Ha & Hind) _].
    unfold fitness_at in Hf. rewrite Ha, Hind in Hf. discriminate. }
  unfold ContestPopulation_evaluate, lazy_and.
  rewrite (bind_run _ _ _ _ _ (all_evaluated_false _ _ Hlive Hnot)).
  by rewrite (bind_run _ _ st' false st').
Qed.

(** X17: a fitness from before a [map], a [filter] or a [survive] of a
    contest population is not used again: when the method returned and
    left an individual, the next lazy evaluation is the evaluation that
    is not lazy. *)
Theorem contest_recomputes_after_change :
  (∀ func (self self' : ContestPopulation C) st st' rnd,
     ContestPopulation_map func self st = Ok (self', st') →
     individuals (base self') ≠ [] →
     ContestPopulation_evaluate rnd true self' st'
     = ContestPopulation_evaluate rnd false self' st') ∧
  (∀ func (self self' : ContestPopulation C) st st' rnd,
     ContestPopulation_filter func self st = Ok (self', st') →
     individuals (base self') ≠ [] →
     ContestPopulation_evaluate rnd true self' st'
     = ContestPopulation_evaluate rnd false self' st') ∧
  (∀ rnd_eval rnd_pick fraction n luck (self self' : ContestPopulation C)
     st st' rnd,
     ContestPopulation_survive rnd_eval rnd_pick fraction n luck self st
       = Ok (self', st') →
     individuals (base self') ≠ [] →
     ContestPopulation_evaluate rnd true self' st'
     = ContestPopulation_evaluate rnd false self' st').
Proof.
  split_and!.
  - intros func self self' st st' rnd. unfold ContestPopulation_map.
    intros (b & st1 & _ & (u & st2 & Hreset & [<- <-]%ret_Ok)%bind_Ok)%bind_Ok.
    by eapply reset_then_lazy.
  - intros func self self' st st' rnd. unfold ContestPopulation_filter.
    intros (b & st1 & _ & (u & st2 & Hreset & [<- <-]%ret_Ok)%bind_Ok)%bind_Ok.
    by eapply reset_then_lazy.
  - intros rnd_eval rnd_pick fraction n luck self self' st st' rnd.
    unfold ContestPopulation_survive.
    intros (b & st1 & _ & (u & st2 & Hreset & [<- <-]%ret_Ok)%bind_Ok)%bind_Ok.
    by eapply reset_then_lazy.
Qed.

End Recompute.

Lemma contest_recomputes_after_change_witness :
  ∃ self' st',
    ContestPopulation_survive (λ _ _, 1%nat) (λ _, 0%nat) None (Some 2) false
      contest3 store3 = Ok (self', st') ∧
    ContestPopulation_evaluate (λ _ _, 1%nat) true self' st'
    = ContestPopulation_evaluate (λ _ _, 1%nat) false self' st'.
Proof.
  destruct (contest_recomputes_after_change (C := Z)) as (_ & _ & Hsurvive).
  eexists _, _. split; [vm_compute; reflexivity|].
  apply (Hsurvive (λ _ _, 1%nat) (λ _, 0%nat) None (Some 2) false contest3 _
           store3); [reflexivity | done].
Defined.

(** ** Mutation *)

Section Mutate.

Context {C E : Type}.
Implicit Types st : Store C.
Implicit Types self : Population E.

(** X18: [mutate] applies [func] to the chromosome of an individual
    once for every place the individual has in the sequence, so twice
    to an individual that is there twice; it changes no object outside
    the population and neither makes nor drops an object.  This holds
    for every [Individual.mutate] that replaces the chromosome of its
    individual by what [func] makes of it. *)
Theorem Population_mutate_chromosomes mutate_one (func : C → C) self st u st' :
  mutates_chromosome mutate_one →
  Population_mutate mutate_one func self st = Ok (u, st') →
  length st' = length st ∧
  ∀ a,
    chromosome_at st' a
      = Nat.iter (length (filter (λ x, x = a) (individuals self))) func
          <$> chromosome_at st a ∧
    (a ∉ individuals self → st' !! a = st !! a).
Proof.
  intros Hmut. unfold Population_mutate. revert st.
  induction (individuals self) as [|b l IH]; intros st Hrun; simpl in Hrun.
  - apply ret_Ok in Hrun as [_ <-]. split; [done|]. intros a.
    split; [|done]. simpl. by destruct (chromosome_at st a).
  - apply bind_Ok in Hrun as (u1 & st1 & H1 & Hrun).
    pose proof (Hmut func b st) as Hb. rewrite H1 in Hb.
    destruct Hb as (ind & ind' & Hind & Hchrom & ->).
    destruct (IH _ Hrun) as [Hlen Hall].
    rewrite length_insert in Hlen. split; [done|]. intros a.
    destruct (Hall a) as [Hc Hout]. split.
    + rewrite Hc, filter_cons. unfold chromosome_at.
      destruct (decide (b = a)) as [->|Hne].
      * rewrite list_lookup_insert_eq by by eapply lookup_lt_Some.
        rewrite Hind. simpl. rewrite Hchrom. f_equal. apply Nat.iter_swap.
      * by rewrite list_lookup_insert_ne.
    + intros [Hne Hl]%not_elem_of_cons.
      rewrite (Hout Hl). by apply list_lookup_insert_ne.
Qed.

End Mutate.

Lemma Individual_mutate_mutates {C} : mutates_chromosome (@Individual_mutate C).
Proof.
  intros func a st. unfold Individual_mutate.
  destruct (st !! a) as [ind|]; [|done].
  by exists ind, {| chromosome := func (chromosome ind);
                    fitness := fitness ind |}.
Qed.

Lemma Population_mutate_chromosomes_witness :
  ∃ st',
    Population_mutate Individual_mutate (Z.mul 2)
      (mkPopulation (λ c : Z, c) 0 [0; 1; 0]%nat 3 true) store3 = Ok (tt, st') ∧
    chromosome_at st' 0%nat = Some 40 ∧
    chromosome_at st' 1%nat = Some 40 ∧
    chromosome_at st' 2%nat = Some 30.
Proof.
  edestruct (Population_mutate_chromosomes Individual_mutate (Z.mul 2)
               (mkPopulation (λ c : Z, c) 0 [0; 1; 0]%nat 3 true) store3)
    as [_ Hall].
  - exact Individual_mutate_mutates.
  - vm_compute. reflexivity.
  - eexists. split; [reflexivity|]. split_and!.
    + exact (proj1 (Hall 0%nat)).
    + exact (proj1 (Hall 1%nat)).
    + exact (proj1 (Hall 2%nat)).
Defined.

Section SurviveEffect.

Context {C : Type}.
Implicit Types st : Store C.
Implicit Types self : Population (C → Z).

(** X19: what [survive] changes.  A survival that returns, with or
    without luck, has changed the store as the lazy evaluation does and
    no further; of the attributes of the population only the
    individuals have changed; and every survivor is an individual the
    population had, evaluated. *)
Theorem survive_effect self rnd fraction n luck st self' st' :
  Population_survive Population_evaluate rnd fraction n luck self st
    = Ok (self', st') →
  Population_evaluate true self st = Ok (tt, st') ∧
  self' = set_individuals (individuals self') self ∧
  (∀ a, a ∈ individuals self' → a ∈ individuals self) ∧
  evaluated st' (individuals self').
Proof.
  intros Hrun.
  pose proof (Population_survive_within _ _ _ _ _ _ _ _ _ Hrun) as Hin.
  apply Population_survive_Ok in Hrun as (size & [] & _ & Heval & _ & _ & Hsel).
  split_and!; [done | | done |].
  - destruct luck.
    + by destruct Hsel as (? & ? & _ & _ & ->).
    + by destruct Hsel as (? & _ & ->).
  - apply Population_evaluate_evaluated in Heval as [_ Hev].
    unfold evaluated in *. rewrite List.Forall_forall in Hev.
    apply List.Forall_forall. intros a Ha%list_elem_of_In%Hin.
    by apply Hev, list_elem_of_In.
Qed.

End SurviveEffect.

Lemma survive_effect_witness :
  ∃ self' st',
    Population_survive Population_evaluate (λ j, (3 * j)%nat) None (Some 3)
      true pop1234 store1234 = Ok (self', st') ∧
    individuals self' = [0; 3; 2]%nat ∧
    intended_size self' = 4 ∧
    evaluated st' (individuals self').
Proof.
  eexists _, _. split; [vm_compute; reflexivity|]. split; [reflexivity|].
  destruct (survive_effect pop1234 (λ j, (3 * j)%nat) None (Some 3) true
              store1234 _ _ eq_refl) as (_ & _ & _ & Hev).
  by split.
Defined.
